(** * scada-spark-api: device supervisor, broadcast loop, park access

    A shallow embedding of the parts of [main.py], [parks.py] and
    [parks_routes.py] that decide the behaviour of the connection
    supervisor ([OpcUaClient]), the broadcast loop
    ([data_broadcast_loop]), the websocket handshake ([ws_endpoint],
    [user_from_token]), the write endpoint ([write_plc_value]) and the
    park access table ([user_allowed_urls], [grant_user_park]).

    Conventions.
    - Python objects that are mutated in place are records that the
      operations take and return; a list of such objects is a store and
      a reference into it is an index.
    - Everything the code obtains from the network, the clock or the
      database driver is an explicit environment argument, so that every
      theorem is quantified over all behaviours of the outside world.
    - An exception raised by a library call is a constructor of the
      environment's answer; [try]/[except] is the [match] on it.
    - Instants are integers counting microseconds, the resolution of
      [datetime]; a [timedelta] is a difference of two instants.
    - The calls the executor runs on different devices touch different
      objects, so a sweep is the sequence of its calls.  A run of the
      application ([serve_all]) takes iterations and requests one after
      the other; what two threads do to one object at the same time is
      not part of the model.
    - A character is a code point below 256. *)

From Stdlib Require Import ZArith QArith Ascii String.
From stdpp Require Import gmap strings list fin_maps.

Local Open Scope string_scope.
Local Open Scope Z_scope.
Local Open Scope list_scope.

(** ** Python dictionaries with string keys

    A [dict] keeps insertion order and overwrites in place; both are
    visible in [zip(names, values)] and in the serialised snapshot. *)

Module Dict.

Definition t (V : Type) : Type := list (string * V).

Fixpoint get {V} (d : t V) (k : string) : option V :=
  match d with
  | [] => None
  | (k', v) :: d' => if String.eqb k' k then Some v else get d' k
  end.

(** [d[k] = v] *)
Fixpoint set {V} (k : string) (v : V) (d : t V) : t V :=
  match d with
  | [] => [(k, v)]
  | (k', v') :: d' =>
      if String.eqb k' k then (k', v) :: d' else (k', v') :: set k v d'
  end.

(** [d.update(other)] *)
Definition update {V} (d other : t V) : t V :=
  fold_left (fun acc kv => set (fst kv) (snd kv) acc) other d.

Definition keys {V} (d : t V) : list string := map fst d.
Definition values {V} (d : t V) : list V := map snd d.

End Dict.

(** ** The OPC UA address space as the client sees it *)

(** [ua.NodeClass] *)
Inductive NodeClass : Set :=
| NodeClass_Unspecified
| NodeClass_Object
| NodeClass_Variable
| NodeClass_Method
| NodeClass_ObjectType
| NodeClass_VariableType
| NodeClass_ReferenceType
| NodeClass_DataType
| NodeClass_View.

(** [ua.VariantType], the representations the write endpoint can meet. *)
Inductive VariantType : Set :=
| VT_Boolean
| VT_SByte | VT_Byte
| VT_Int16 | VT_UInt16
| VT_Int32 | VT_UInt32
| VT_Int64 | VT_UInt64
| VT_Float | VT_Double
| VT_String
| VT_DateTime.

Definition is_integral (vt : VariantType) : bool :=
  match vt with
  | VT_SByte | VT_Byte | VT_Int16 | VT_UInt16
  | VT_Int32 | VT_UInt32 | VT_Int64 | VT_UInt64 => true
  | _ => false
  end.

(** A node handle.  Each query on it is a round trip to the server that
    may raise: [None] is the raising answer, whatever raised, the
    server, the connection or the interpreter out of stack inside the
    call. *)
#[warnings="-register-all"]
Inductive UaNode : Type :=
  mkUaNode {
    get_node_class : option NodeClass;
    get_browse_name : option string;
    get_children : option (list UaNode);
    get_data_type_as_variant_type : option VariantType
  }.

(** [opcua.Client(url, timeout=...)] *)
Record Client : Type := mkClient {
  client_url : string;
  client_timeout : Z
}.

(** ** [ConnectionStatus] and [OpcUaClient] *)

Inductive ConnectionStatus : Set :=
| CONNECTED
| CONNECTING
| DISCONNECTED
| ERROR.

#[global] Instance ConnectionStatus_eq_dec : EqDecision ConnectionStatus.
Proof. solve_decision. Defined.

(** [ConnectionStatus.value] *)
Definition status_value (s : ConnectionStatus) : string :=
  match s with
  | CONNECTED => "CONNECTED"
  | CONNECTING => "CONNECTING"
  | DISCONNECTED => "DISCONNECTED"
  | ERROR => "ERROR"
  end.

Record OpcUaClient : Type := mkOpcUaClient {
  url : string;
  name : string;
  server_name : string;
  root_node_id : string;
  client : option Client;
  nodes : Dict.t UaNode;
  status : ConnectionStatus;
  last_reconnect_attempt : option Z
}.

(** [OpcUaClient.__init__] *)
Definition OpcUaClient_init (u custom_name root : string) : OpcUaClient :=
  {| url := u; name := custom_name; server_name := "";
     root_node_id := root; client := None; nodes := [];
     status := DISCONNECTED; last_reconnect_attempt := None |}.

(** ** The supervisor monad

    A method of [OpcUaClient] reads and assigns the fields of [self].
    Every assignment to [self.status] is also appended to a journal, so
    that the transitions a method goes through stay observable after it
    returned. *)

Definition Dev (A : Type) : Type :=
  OpcUaClient -> A * OpcUaClient * list ConnectionStatus.

#[global] Instance Dev_ret : MRet Dev := fun A a p => (a, p, []).

#[global] Instance Dev_bind : MBind Dev := fun A B k m p =>
  let '(a, p1, j1) := m p in
  let '(b, p2, j2) := k a p1 in
  (b, p2, j1 ++ j2).

Definition self : Dev OpcUaClient := fun p => (p, p, []).

Definition set_last_reconnect_attempt (t : Z) : Dev unit := fun p =>
  (tt, {| url := url p; name := name p; server_name := server_name p;
          root_node_id := root_node_id p; client := client p;
          nodes := nodes p; status := status p;
          last_reconnect_attempt := Some t |}, []).

Definition set_client (c : option Client) : Dev unit := fun p =>
  (tt, {| url := url p; name := name p; server_name := server_name p;
          root_node_id := root_node_id p; client := c;
          nodes := nodes p; status := status p;
          last_reconnect_attempt := last_reconnect_attempt p |}, []).

Definition set_nodes (d : Dict.t UaNode) : Dev unit := fun p =>
  (tt, {| url := url p; name := name p; server_name := server_name p;
          root_node_id := root_node_id p; client := client p;
          nodes := d; status := status p;
          last_reconnect_attempt := last_reconnect_attempt p |}, []).

Definition set_server_name (s : string) : Dev unit := fun p =>
  (tt, {| url := url p; name := name p; server_name := s;
          root_node_id := root_node_id p; client := client p;
          nodes := nodes p; status := status p;
          last_reconnect_attempt := last_reconnect_attempt p |}, []).

Definition set_status (s : ConnectionStatus) : Dev unit := fun p =>
  (tt, {| url := url p; name := name p; server_name := server_name p;
          root_node_id := root_node_id p; client := client p;
          nodes := nodes p; status := s;
          last_reconnect_attempt := last_reconnect_attempt p |}, [s]).

Definition result_of {A} (r : A * OpcUaClient * list ConnectionStatus) : A :=
  fst (fst r).
Definition state_of {A} (r : A * OpcUaClient * list ConnectionStatus)
  : OpcUaClient := snd (fst r).
Definition journal_of {A} (r : A * OpcUaClient * list ConnectionStatus)
  : list ConnectionStatus := snd r.

(** ** Node discovery: [OpcUaClient._get_readable_nodes]

    The argument is the address space as this traversal met it.  Where
    the address space is nested deeper than the interpreter's recursion
    limit, the queries at that depth raise [RecursionError] into the
    two [except] clauses like any other failure: they are [None], and
    what lies below them is neither visited nor recorded. *)

Fixpoint _get_readable_nodes (node : UaNode) : Dict.t UaNode :=
  let nodes_dict :=
    match get_node_class node with
    | Some NodeClass_Variable =>
        match get_browse_name node with
        | Some browse => Dict.set browse node []
        | None => []
        end
    | _ => []
    end in
  match get_children node with
  | Some children =>
      fold_left
        (fun acc child => Dict.update acc (_get_readable_nodes child))
        children nodes_dict
  | None => nodes_dict
  end.

(** ** [OpcUaClient.connect_and_discover] *)

(** What the server answers during one connection attempt. *)
Record ConnectEnv : Type := mkConnectEnv {
  (** [self.client.connect()] returns ([true]) or raises ([false]) *)
  connect_returns : bool;
  (** [get_node("ns=0;i=2254").get_value()]: raises, or a value that
      may be [None] *)
  server_name_value : option (option string);
  (** [self.client.get_node(self.root_node_id)]: a handle, or raises *)
  root_node : option UaNode
}.

(** The method on a device for whose url [Client(self.url, timeout=40)]
    returns a client.  That constructor stands before the [try]: what
    the method does when it raises is [connect_and_discover_call]. *)
Definition connect_and_discover (now : Z) (env : ConnectEnv) : Dev bool :=
  set_last_reconnect_attempt now ;;
  (* the previous client, if any, is disconnected; failures are ignored *)
  p ← self;
  set_client (Some (mkClient (url p) 40)) ;;
  set_status CONNECTING ;;
  set_nodes [] ;;
  if connect_returns env then
    set_server_name
      (match server_name_value env with
       | Some (Some s) => s
       | Some None => ""
       | None => ""
       end) ;;
    match root_node env with
    | Some root =>
        set_nodes (_get_readable_nodes root) ;;
        set_status CONNECTED ;;
        mret true
    | None =>
        set_status DISCONNECTED ;;
        set_client None ;;
        mret false
    end
  else
    set_status DISCONNECTED ;;
    set_client None ;;
    mret false.

(** How a call ends. *)
Inductive Outcome (A : Type) : Type :=
| Returned (a : A)
| Raised (e : string).
Arguments Returned {A} a.
Arguments Raised {A} e.

(** The method on any device.  [Client_error u] is the exception
    [Client(u, timeout=40)] raises, if it raises: the constructor parses
    the url and rejects, for one, a bracket that is not closed.  It
    stands after the time stamp and the disconnection of the previous
    client and before the first assignment to [self.client], and no
    [try] encloses it. *)
Definition connect_and_discover_call (Client_error : string -> option string)
    (now : Z) (env : ConnectEnv) : Dev (Outcome bool) :=
  p ← self;
  match Client_error (url p) with
  | Some e =>
      set_last_reconnect_attempt now ;;
      mret (Raised e)
  | None =>
      b ← connect_and_discover now env;
      mret (Returned b)
  end.

(** ** [OpcUaClient.read_data] *)

(** The dictionary [read_data] returns; [snap_error] is the optional
    ["error"] key. *)
Record Snapshot : Type := mkSnapshot {
  snap_name : string;
  snap_status : string;
  snap_url : string;
  snap_nodes : Dict.t string;
  snap_error : option string
}.

Definition with_error (data : Snapshot) (e : string) : Snapshot :=
  {| snap_name := snap_name data; snap_status := snap_status data;
     snap_url := snap_url data; snap_nodes := snap_nodes data;
     snap_error := Some e |}.

(** [data["nodes"][n] = v] *)
Definition with_node (data : Snapshot) (n v : string) : Snapshot :=
  {| snap_name := snap_name data; snap_status := snap_status data;
     snap_url := snap_url data; snap_nodes := Dict.set n v (snap_nodes data);
     snap_error := snap_error data |}.

(** How the body of the [try] in [read_data] ends once it has reached
    [self.client.get_values(ids)]. *)
Inductive GetValues : Type :=
| (** the batched read returned; [str(v)] of every value, in order *)
  Values (vs : list string)
| (** [UaStatusCodeError] was raised; [e] is its rendering *)
  RaisesUaStatusCodeError (e : string)
| (** any other exception, raised by the read or after the first
      [stored] values had been put into [data["nodes"]] *)
  RaisesOther (stored : list string).

Definition store_values (names vs : list string) (data : Snapshot)
  : Snapshot :=
  fold_left (fun d nv => with_node d (fst nv) (snd nv)) (zip names vs) data.

Definition read_data (env : GetValues) : Dev Snapshot :=
  p ← self;
  let data := {| snap_name := name p; snap_status := status_value (status p);
                 snap_url := url p; snap_nodes := []; snap_error := None |} in
  if negb (bool_decide (status p = CONNECTED))
     || negb (bool_decide (is_Some (client p)))
  then mret data
  else
    let ids := Dict.values (nodes p) in
    let names := Dict.keys (nodes p) in
    match ids with
    | [] => mret (with_error data "No readable nodes.")
    | _ :: _ =>
        match env with
        | Values vs => mret (store_values names vs data)
        | RaisesUaStatusCodeError e =>
            set_status ERROR ;;
            mret (with_error data (String.append "OPC UA read error: " e))
        | RaisesOther stored =>
            mret (with_error (store_values names stored data)
                    "Temporary read failure.")
        end
    end.

(** ** Sequences of supervisor calls on one device *)

Inductive DeviceCall : Type :=
| Call_connect_and_discover (now : Z) (env : ConnectEnv)
| Call_read_data (env : GetValues).

Definition call (c : DeviceCall) : Dev unit :=
  match c with
  | Call_connect_and_discover now env => connect_and_discover now env ;; mret tt
  | Call_read_data env => read_data env ;; mret tt
  end.

Fixpoint calls (cs : list DeviceCall) : Dev unit :=
  match cs with
  | [] => mret tt
  | c :: cs' => call c ;; calls cs'
  end.

(** The statuses a device goes through: the one it starts in, followed
    by every assignment to [self.status], in order. *)
Definition status_history (cs : list DeviceCall) (p : OpcUaClient)
  : list ConnectionStatus :=
  status p :: journal_of (calls cs p).

(** ** Subscribers *)

(** A registered [WebSocket].  [allowed_urls] is what
    [getattr(ws, "allowed_urls", None)] evaluates to. *)
Record WebSocket : Type := mkWebSocket {
  ws_id : nat;
  allowed_urls : option (gset string)
}.

(** The two envelopes of [send_json]. *)
Inductive Payload : Type :=
| telemetry_update (data_plc_clients : list Snapshot)
| keepalive.

(** How [asyncio.run_coroutine_threadsafe(ws.send_json(payload), loop)]
    ends for one socket. *)
Inductive SendOutcome : Type :=
| (** scheduled, and the coroutine later completes on the event loop *)
  SendSucceeds
| (** scheduled, and the coroutine later fails on the event loop; the
      exception stays in the future, which the loop thread discards *)
  SendFailsOnLoop
| (** an exception is raised in the broadcasting thread itself *)
  SendRaises (e : string).

(** What the broadcasting thread does for one socket. *)
Inductive Effect : Type :=
| Scheduled (ws : nat) (payload : Payload)
| Logged (msg : string).

(** Python truth value of [allowed]: [None] and the empty set are
    false. *)
Definition truthy (allowed : option (gset string)) : bool :=
  match allowed with
  | None => false
  | Some s => negb (bool_decide (s = ∅))
  end.

(** [[d for d in all_plc_data if d["url"] in allowed] if allowed
     else all_plc_data] *)
Definition visible_data (allowed : option (gset string))
    (all_plc_data : list Snapshot) : list Snapshot :=
  if truthy allowed then
    List.filter
      (fun d => bool_decide (snap_url d ∈ default ∅ allowed)) all_plc_data
  else all_plc_data.

(** ** The global state of [main.py] *)

Record Server : Type := mkServer {
  plc_clients : list OpcUaClient;
  (** [Dict[str, Set[WebSocket]]], in iteration order *)
  active_ws_connections : list (string * list WebSocket)
}.

(** What the outside world does during one iteration of the loop.
    Devices are addressed by their position in [plc_clients], sockets
    by [ws_id]. *)
Record TickEnv : Type := mkTickEnv {
  (** [datetime.now()] when the reconnect condition of device [i] is
      evaluated *)
  now_check : nat -> Z;
  (** [datetime.now()] at the start of [connect_and_discover] on
      device [i] *)
  now_connect : nat -> Z;
  connect_env : nat -> ConnectEnv;
  read_env : nat -> GetValues;
  send_env : nat -> SendOutcome
}.

(** What one iteration did, for the theorems to speak about. *)
Record TickReport : Type := mkTickReport {
  (** the devices on which [connect_and_discover] was called *)
  attempted : list nat;
  all_plc_data : list Snapshot;
  effects : list Effect
}.

(** [timedelta(minutes=PLC_RECONNECT_DELAY_MINUTES)] *)
Definition timedelta_minutes (minutes : Z) : Z := minutes * 60 * 1000000.

(** The condition of the [reconnect_list] comprehension. *)
Definition needs_reconnect (reconnect_delay now : Z) (p : OpcUaClient)
  : bool :=
  (bool_decide (status p = DISCONNECTED) || bool_decide (status p = ERROR))
  && match last_reconnect_attempt p with
     | None => true
     | Some last => bool_decide (now - last > reconnect_delay)
     end.

(** [reconnect_list], as references into [plc_clients]; [i] is the
    position of the head of [clients]. *)
Fixpoint reconnect_list_from (reconnect_delay : Z) (env : TickEnv) (i : nat)
    (clients : list OpcUaClient) : list nat :=
  match clients with
  | [] => []
  | p :: ps =>
      if needs_reconnect reconnect_delay (now_check env i) p
      then i :: reconnect_list_from reconnect_delay env (S i) ps
      else reconnect_list_from reconnect_delay env (S i) ps
  end.

Definition reconnect_list (reconnect_delay : Z) (env : TickEnv)
    (clients : list OpcUaClient) : list nat :=
  reconnect_list_from reconnect_delay env 0 clients.

(** [executor.map(lambda p: p.connect_and_discover(), reconnect_list)]:
    each call mutates the object its reference points to.  The devices
    are those for whose url a client can be constructed; a call that
    raises instead ([connect_and_discover_call]) ends the iteration in
    the handler of the loop, before anything is read or sent. *)
Definition connect_one (env : TickEnv) (clients : list OpcUaClient) (i : nat)
  : list OpcUaClient :=
  match clients !! i with
  | Some p =>
      <[i := state_of
               (connect_and_discover (now_connect env i) (connect_env env i) p)]>
        clients
  | None => clients
  end.

Definition connect_sweep (env : TickEnv) (refs : list nat)
    (clients : list OpcUaClient) : list OpcUaClient :=
  fold_left (connect_one env) refs clients.

(** [executor.map(lambda p: p.read_data(), plc_clients)] *)
Definition read_sweep (env : TickEnv) (clients : list OpcUaClient)
  : list (Snapshot * OpcUaClient * list ConnectionStatus) :=
  imap (fun i p => read_data (read_env env i) p) clients.

(** The body of the [try] for one socket, and its [except]. *)
Definition send_one (env : TickEnv) (batch : list Snapshot)
    (user_id : string) (ws : WebSocket) : list Effect :=
  let payload := telemetry_update (visible_data (allowed_urls ws) batch) in
  match send_env env (ws_id ws) with
  | SendSucceeds => [Scheduled (ws_id ws) payload]
  | SendFailsOnLoop => [Scheduled (ws_id ws) payload]
  | SendRaises e =>
      [Logged (String.append "WebSocket send error for "
                 (String.append user_id (String.append ": " e)))]
  end.

(** [for user_id, sockets in list(active_ws_connections.items()):
       for ws in sockets: ...], on the registry as it stands when the
    fan-out starts.  A handler that adds or discards a socket while a
    set is iterated, and a coroutine that fails once the event loop
    runs it, belong to the interleaving of the two threads, which is
    not described here. *)
Definition broadcast (env : TickEnv) (batch : list Snapshot)
    (registry : list (string * list WebSocket)) : list Effect :=
  flat_map
    (fun entry => flat_map (send_one env batch (fst entry)) (snd entry))
    registry.

(** One iteration of the [while] loop of [data_broadcast_loop], up to
    the sleep. *)
Definition tick (reconnect_delay : Z) (env : TickEnv) (s : Server)
  : Server * TickReport :=
  let refs := reconnect_list reconnect_delay env (plc_clients s) in
  let connected := connect_sweep env refs (plc_clients s) in
  let reads := read_sweep env connected in
  let batch := result_of <$> reads in
  ({| plc_clients := state_of <$> reads;
      active_ws_connections := active_ws_connections s |},
   {| attempted := refs;
      all_plc_data := batch;
      effects := broadcast env batch (active_ws_connections s) |}).

(** [data_broadcast_loop]: one environment per iteration performed
    before [stop_event] is set. *)
Fixpoint data_broadcast_loop (PLC_RECONNECT_DELAY_MINUTES : Z)
    (envs : list TickEnv) (s : Server) : Server * list TickReport :=
  match envs with
  | [] => (s, [])
  | env :: envs' =>
      let '(s1, r) :=
        tick (timedelta_minutes PLC_RECONNECT_DELAY_MINUTES) env s in
      let '(s2, rs) :=
        data_broadcast_loop PLC_RECONNECT_DELAY_MINUTES envs' s1 in
      (s2, r :: rs)
  end.

(** The sockets registered, over all users. *)
Definition registered (s : Server) : list WebSocket :=
  flat_map snd (active_ws_connections s).

(** ** Users *)

Module User.
(** The columns of [users] the code looks at; [id] is the UUID. *)
Record t : Type := mk {
  id : N;
  is_superuser : bool;
  is_active : bool
}.
End User.

(** ** The write endpoint: [write_plc_value] *)

(** A Python [float]: a finite double is a rational number. *)
Inductive PyFloat : Type :=
| Finite (q : Q)
| Infinity (negative : bool)
| NaN.

(** [WriteRequest.value : Union[float, List[bool], int, str]], after
    validation. *)
Inductive Value : Type :=
| V_float (x : PyFloat)
| V_list_bool (bs : list bool)
| V_int (n : Z)
| V_str (s : string).

(** [int(x)] on a float truncates towards zero, and raises on the
    values that are not finite. *)
Definition int_of_float (x : PyFloat) : string + Z :=
  match x with
  | Finite q => inr (Z.quot (Qnum q) (Z.pos (Qden q)))
  | Infinity _ => inl "cannot convert float infinity to integer"
  | NaN => inl "cannot convert float NaN to integer"
  end.

Record WriteRequest : Type := mkWriteRequest {
  plc_url : string;
  node_name : string;
  value : Value
}.

(** What the server answers to the two round trips of a write. *)
Record WriteEnv : Type := mkWriteEnv {
  (** the rendering of the exception, should the data type query raise *)
  data_type_error : string;
  (** [node.set_attribute(...)]: returns ([None]) or raises *)
  set_attribute_error : option string
}.

Inductive WriteResponse : Type :=
| (** [{"status": "success"}], after [ua.Variant(v, vt)] was written *)
  Success (v : Value) (vt : VariantType)
| HTTPException (status_code : Z) (detail : string).

Definition write_failed (e : string) : WriteResponse :=
  HTTPException 500 (String.append "Write failed: " e).

Definition write_plc_value (env : WriteEnv) (clients : list OpcUaClient)
    (req : WriteRequest) (user : User.t) : WriteResponse :=
  if negb (User.is_superuser user) then
    HTTPException 403 "Write requires superuser privileges."
  else
    match List.find (fun p => String.eqb (url p) (plc_url req)) clients with
    | None => HTTPException 404 "PLC not connected."
    | Some target =>
        if negb (bool_decide (status target = CONNECTED)) then
          HTTPException 404 "PLC not connected."
        else
          match Dict.get (nodes target) (node_name req) with
          | None =>
              HTTPException 404
                (String.append "Node '"
                   (String.append (node_name req) "' not found."))
          | Some node =>
              match get_data_type_as_variant_type node with
              | None => write_failed (data_type_error env)
              | Some vt =>
                  let coerced :=
                    match value req with
                    | V_float x =>
                        match int_of_float x with
                        | inr n => inr (V_int n)
                        | inl e => inl e
                        end
                    | other => inr other
                    end in
                  match coerced with
                  | inl e => write_failed e
                  | inr v =>
                      match set_attribute_error env with
                      | None => Success v vt
                      | Some e => write_failed e
                      end
                  end
              end
          end
    end.

(** ** [parks.py]: parks and their endpoints *)

(** One entry of ["plc_config"] in config.json; a key that is absent or
    [null] is [None]. *)
Record PlcConfigItem : Type := mkPlcConfigItem {
  cfg_id : option string;
  cfg_name : option string;
  cfg_url : option string
}.

(** [x or ""] *)
Definition or_empty (x : option string) : string := default "" x.

Definition is_empty (s : string) : bool := String.eqb s "".

(** A character is a code point below 256, which is what a header
    decoded as latin-1 is made of.  White space is what [str.strip()]
    removes among them: tab to carriage return, the four separators,
    the blank, NEL (U+0085) and the no-break space (U+00A0). *)
Definition is_space (c : ascii) : bool :=
  let n := nat_of_ascii c in
  ((9 <=? n) && (n <=? 13) || (28 <=? n) && (n <=? 32)
   || (n =? 133) || (n =? 160))%nat.

(** [str.lower()] moves a character outside [A-Z] to another character
    outside ASCII or leaves it; neither [slugify] nor the comparison
    with ["bearer "] can tell, so only [A-Z] is lowered. *)
Definition lower (c : ascii) : ascii :=
  let n := nat_of_ascii c in
  if ((65 <=? n) && (n <=? 90))%nat then ascii_of_nat (n + 32) else c.

Definition is_slug_char (c : ascii) : bool :=
  let n := nat_of_ascii c in
  ((97 <=? n) && (n <=? 122) || (48 <=? n) && (n <=? 57))%nat.

Fixpoint lstrip (f : ascii -> bool) (s : list ascii) : list ascii :=
  match s with
  | c :: s' => if f c then lstrip f s' else s
  | [] => []
  end.

Definition strip (f : ascii -> bool) (s : list ascii) : list ascii :=
  rev (lstrip f (rev (lstrip f s))).

(** [_slug_re.sub("_", s)]: every maximal run of characters outside
    [a-z0-9] becomes one underscore; [in_run] tells whether the previous
    character belonged to such a run. *)
Fixpoint slug_sub (in_run : bool) (s : list ascii) : list ascii :=
  match s with
  | [] => []
  | c :: s' =>
      if is_slug_char c then c :: slug_sub false s'
      else if in_run then slug_sub true s'
      else "_"%char :: slug_sub true s'
  end.

(** [slugify], on ASCII strings. *)
Definition slugify (value : string) : string :=
  let s := List.map lower (strip is_space (list_ascii_of_string value)) in
  let s := strip (Ascii.eqb "_"%char) (slug_sub false s) in
  match s with
  | [] => "park"
  | _ :: _ => string_of_list_ascii s
  end.

Record ParkInfo : Type := mkParkInfo {
  park_name : string;
  park_url : string
}.

(** The loop that builds [PARKS]; [slug] is the fallback for a missing
    ["id"]. *)
Definition add_park (slug : string -> string)
    (PARKS : gmap string ParkInfo) (item : PlcConfigItem)
  : gmap string ParkInfo :=
  let name := or_empty (cfg_name item) in
  let url := or_empty (cfg_url item) in
  let park_id :=
    if is_empty (or_empty (cfg_id item)) then slug name
    else or_empty (cfg_id item) in
  if is_empty url then PARKS
  else
    <[park_id := {| park_name := if is_empty name then park_id else name;
                    park_url := url |}]> PARKS.

Definition build_PARKS (slug : string -> string)
    (plc_config : list PlcConfigItem) : gmap string ParkInfo :=
  fold_left (add_park slug) plc_config ∅.

Definition is_valid_park (PARKS : gmap string ParkInfo) (park_id : string)
  : bool :=
  bool_decide (is_Some (PARKS !! park_id)).

Definition map_park_ids_to_urls (PARKS : gmap string ParkInfo)
    (park_ids : list string) : gset string :=
  fold_left
    (fun urls pid =>
       match PARKS !! pid with
       | Some info =>
           if is_empty (park_url info) then urls
           else urls ∪ {[park_url info]}
       | None => urls
       end)
    park_ids ∅.

(** ** The access table *)

Module UserParkAccess.
(** A row of [user_park_access]. *)
Record t : Type := mk {
  id : N;
  user_id : N;
  park_id : string
}.
End UserParkAccess.

Definition Table : Type := list UserParkAccess.t.

(** [select(UserParkAccess.park_id).where(UserParkAccess.user_id == uid)] *)
Definition select_park_ids (table : Table) (uid : N) : list string :=
  UserParkAccess.park_id <$>
    List.filter (fun r => N.eqb (UserParkAccess.user_id r) uid) table.

Definition user_allowed_park_ids (PARKS : gmap string ParkInfo)
    (table : Table) (user : User.t) : gset string :=
  list_to_set
    (List.filter (is_valid_park PARKS) (select_park_ids table (User.id user))).

Definition user_allowed_urls (PARKS : gmap string ParkInfo)
    (table : Table) (user : User.t) : gset string :=
  map_park_ids_to_urls PARKS
    (elements (user_allowed_park_ids PARKS table user)).

(** [{cfg["url"] for cfg in PLC_CONFIG}] of [main.py]; every entry has
    the key once [on_startup] has returned. *)
Definition config_urls (plc_config : list PlcConfigItem) : gset string :=
  list_to_set (omap cfg_url plc_config).

(** The visibility set [ws_endpoint] attaches to a socket. *)
Definition ws_allowed_urls (plc_config : list PlcConfigItem)
    (PARKS : gmap string ParkInfo) (table : Table) (user : User.t)
  : gset string :=
  if User.is_superuser user then config_urls plc_config
  else
    list_to_set
      (omap (fun p => park_url <$> PARKS !! p)
         (select_park_ids table (User.id user))).

(** [on_startup]: one supervisor per configured device. *)
Definition on_startup (plc_config : list PlcConfigItem)
    (COMMON_ROOT_NODE_ID : string) : list OpcUaClient :=
  (fun cfg =>
     OpcUaClient_init (or_empty (cfg_url cfg)) (or_empty (cfg_name cfg))
       COMMON_ROOT_NODE_ID) <$> plc_config.

(** [get_initial_data], the pull counterpart of the broadcast: the
    devices it reads. *)
Definition get_initial_data_visible (allowed : gset string)
    (clients : list OpcUaClient) : list OpcUaClient :=
  List.filter (fun p => bool_decide (url p ∈ allowed)) clients.

(** ** [parks_routes.py]: granting a park *)

(** [Result.scalar_one_or_none()] *)
Inductive ScalarOneOrNone (A : Type) : Type :=
| NoRow
| OneRow (r : A)
| MultipleResultsFound.
Arguments NoRow {A}.
Arguments OneRow {A} r.
Arguments MultipleResultsFound {A}.

Definition scalar_one_or_none {A} (rows : list A) : ScalarOneOrNone A :=
  match rows with
  | [] => NoRow
  | [r] => OneRow r
  | _ :: _ :: _ => MultipleResultsFound
  end.

Inductive GrantResponse : Type :=
| NoContent_204
| NotFound_404 (detail : string)
| Unhandled (exception : string).

(** [fresh] is the [uuid4()] the new row would get as its [id].  The
    insert is the one of a database that accepts it: [user_id] is the
    id of a row of [users], which the foreign key of the column
    demands. *)
Definition grant_user_park (PARKS : gmap string ParkInfo) (fresh : N)
    (user_id : N) (park_id : string) (table : Table)
  : Table * GrantResponse :=
  if negb (bool_decide (is_Some (PARKS !! park_id))) then
    (table, NotFound_404 (String.append "Unknown park id: " park_id))
  else
    let existing :=
      List.filter
        (fun r => N.eqb (UserParkAccess.user_id r) user_id
                  && String.eqb (UserParkAccess.park_id r) park_id)
        table in
    match scalar_one_or_none existing with
    | NoRow =>
        (table ++ [UserParkAccess.mk fresh user_id park_id], NoContent_204)
    | OneRow _ => (table, NoContent_204)
    | MultipleResultsFound => (table, Unhandled "MultipleResultsFound")
    end.

(** [get_user_parks]: what an administrator sees of the table. *)
Definition get_user_parks (table : Table) (user_id : N) : list string :=
  select_park_ids table user_id.

(** * Auxiliary notions

    Predicates the theorems are stated with, and the concrete devices,
    subscribers and tables the scenarios run on. *)

(** A connection attempt succeeds when the dial returns and the root
    node resolves; nothing else in the [try] can raise. *)
Definition connect_succeeds (env : ConnectEnv) : bool :=
  connect_returns env && bool_decide (is_Some (root_node env)).

(** [guarded prev j]: along the journal [j], entered from status
    [prev], [ERROR] is assigned only over [CONNECTED]. *)
Fixpoint guarded (prev : ConnectionStatus) (j : list ConnectionStatus)
  : Prop :=
  match j with
  | [] => True
  | s :: j' => (s = ERROR → prev = CONNECTED) ∧ guarded s j'
  end.

(** Every endpoint of a park map lies in [urls]. *)
Definition parks_within (PARKS : gmap string ParkInfo) (urls : gset string)
  : Prop :=
  ∀ pid info, PARKS !! pid = Some info → park_url info ∈ urls.

Definition grant_matches (user_id : N) (park_id : string)
    (r : UserParkAccess.t) : bool :=
  N.eqb (UserParkAccess.user_id r) user_id
  && String.eqb (UserParkAccess.park_id r) park_id.

(** A device as it is after a successful discovery of one tag. *)
Definition connected_device : OpcUaClient :=
  {| url := "opc.tcp://a:4840"; name := "Park A"; server_name := "";
     root_node_id := "ns=2;s=Root";
     client := Some (mkClient "opc.tcp://a:4840" 40);
     nodes := [("Setpoint",
                mkUaNode (Some NodeClass_Variable) (Some "Setpoint")
                  (Some []) (Some VT_Int32))];
     status := CONNECTED; last_reconnect_attempt := Some 0 |}.

(** A history in which [ERROR] is reached: a failed attempt, a
    successful one, then a protocol error on read. *)
Definition error_run : list DeviceCall :=
  [Call_read_data (Values []);
   Call_connect_and_discover 0 (mkConnectEnv false None None);
   Call_connect_and_discover 400000000
     (mkConnectEnv true (Some (Some "plc"))
        (Some (mkUaNode (Some NodeClass_Variable) (Some "Setpoint")
                 (Some []) (Some VT_Int32))));
   Call_read_data (RaisesUaStatusCodeError "BadTimeout");
   Call_read_data (RaisesUaStatusCodeError "BadTimeout")].

(** The scenario of the specification: endpoint [A], cooldown five
    minutes, a failed first attempt at [t0 = 0]; the clock of an
    iteration is one instant [t]. *)
Definition after_failed_attempt : Server :=
  {| plc_clients :=
       [state_of (connect_and_discover 0 (mkConnectEnv false None None)
                    (OpcUaClient_init "opc.tcp://a:4840" "A" "ns=2;s=R"))];
     active_ws_connections := [] |}.

Definition unreachable_at (t : Z) : TickEnv :=
  {| now_check := fun _ => t; now_connect := fun _ => t;
     connect_env := fun _ => mkConnectEnv false None None;
     read_env := fun _ => RaisesOther [];
     send_env := fun _ => SendSucceeds |}.

(** Two parks and a user to whom none of them is granted. *)
Definition two_parks : list PlcConfigItem :=
  [mkPlcConfigItem (Some "a") (Some "Park A") (Some "opc.tcp://a:4840");
   mkPlcConfigItem (Some "b") (Some "Park B") (Some "opc.tcp://b:4840")].

Definition ungranted_user : User.t := User.mk 7 false true.

Definition ungranted_socket : WebSocket :=
  mkWebSocket 1
    (Some (ws_allowed_urls two_parks (build_PARKS slugify two_parks) []
             ungranted_user)).

Definition ungranted_server : Server :=
  {| plc_clients := on_startup two_parks "ns=2;s=Root";
     active_ws_connections := [("7", [ungranted_socket])] |}.

(** Two subscribers; the send to the first one raises. *)
Definition two_subscribers : Server :=
  {| plc_clients := on_startup two_parks "ns=2;s=Root";
     active_ws_connections :=
       [("7", [mkWebSocket 1 (Some {["opc.tcp://a:4840"]})]);
        ("8", [mkWebSocket 2 (Some {["opc.tcp://b:4840"]})])] |}.

Definition first_send_raises : TickEnv :=
  {| now_check := fun _ => 0; now_connect := fun _ => 0;
     connect_env := fun _ => mkConnectEnv false None None;
     read_env := fun _ => RaisesOther [];
     send_env := fun ws => match ws with
                           | 1%nat => SendRaises "loop is closed"
                           | _ => SendSucceeds
                           end |}.

Definition superuser : User.t := User.mk 1 true true.

(** A connected device with an integral tag and a floating-point tag. *)
Definition setpoint_device : OpcUaClient :=
  {| url := "opc.tcp://a:4840"; name := "Park A"; server_name := "";
     root_node_id := "ns=2;s=Root";
     client := Some (mkClient "opc.tcp://a:4840" 40);
     nodes := [("Setpoint",
                mkUaNode (Some NodeClass_Variable) (Some "Setpoint")
                  (Some []) (Some VT_Int32));
               ("Level",
                mkUaNode (Some NodeClass_Variable) (Some "Level")
                  (Some []) (Some VT_Double))];
     status := CONNECTED; last_reconnect_attempt := Some 0 |}.

Definition server_accepts : WriteEnv := mkWriteEnv "" None.

Definition granted_once : Table := [UserParkAccess.mk 10 7 "a"].

(** * The rest of the three modules

    What [main.py], [parks.py] and [parks_routes.py] do around the
    code above: the pull endpoint, the handshake and bookkeeping of
    [ws_endpoint], and the revocation of a grant. *)

(** ** [get_initial_data]: the pull endpoint *)

(** [visible_clients], as references into [plc_clients]; [i] is the
    position of the head of [clients]. *)
Fixpoint visible_clients_from (allowed : gset string) (i : nat)
    (clients : list OpcUaClient) : list nat :=
  match clients with
  | [] => []
  | p :: ps =>
      if bool_decide (url p ∈ allowed)
      then i :: visible_clients_from allowed (S i) ps
      else visible_clients_from allowed (S i) ps
  end.

Definition visible_clients (allowed : gset string)
    (clients : list OpcUaClient) : list nat :=
  visible_clients_from allowed 0 clients.

(** One call of [executor.map(lambda p: p.read_data(), visible_clients)]:
    the object is read, and mutated, where it lives. *)
Definition read_one (read : nat -> GetValues)
    (acc : list OpcUaClient * list Snapshot) (i : nat)
  : list OpcUaClient * list Snapshot :=
  match fst acc !! i with
  | Some p =>
      let r := read_data (read i) p in
      (<[i := state_of r]> (fst acc), snd acc ++ [result_of r])
  | None => acc
  end.

(** The devices after the request, and the list under ["plc_clients"]
    of the response. *)
Definition get_initial_data (plc_config : list PlcConfigItem)
    (PARKS : gmap string ParkInfo) (table : Table)
    (read : nat -> GetValues) (clients : list OpcUaClient) (user : User.t)
  : list OpcUaClient * list Snapshot :=
  match clients with
  | [] => (clients, [])
  | _ :: _ =>
      let allowed := ws_allowed_urls plc_config PARKS table user in
      fold_left (read_one read) (visible_clients allowed clients)
        (clients, [])
  end.

(** ** [ws_endpoint]: handshake and registry *)

(** [s.split(sep, 1)[1]]: what follows the first [sep]; [None] is the
    [IndexError] of a string without [sep]. *)
Fixpoint after_first (sep : ascii) (s : list ascii) : option (list ascii) :=
  match s with
  | [] => None
  | c :: s' => if Ascii.eqb c sep then Some s' else after_first sep s'
  end.

(** What [ws_endpoint] looks at in the request. *)
Record WsRequest : Type := mkWsRequest {
  (** the [Sec-WebSocket-Protocol] header *)
  hdr_protocol : option string;
  (** [websocket.query_params["token"]], if the key is there *)
  query_token : option string;
  (** the [Authorization] header *)
  hdr_authorization : option string;
  (** whether [websocket.accept(...)] raises *)
  accept_raises : bool
}.

(** How the first [try] of [ws_endpoint] ends. *)
Inductive Handshake : Type :=
| (** accepted; the token found, if any *)
  Accepted (token : option string)
| (** an exception was logged and the handler returned *)
  AcceptError.

Definition accept (req : WsRequest) (token : option string) : Handshake :=
  if accept_raises req then AcceptError else Accepted token.

Definition extract_token (req : WsRequest) : Handshake :=
  let proto := or_empty (hdr_protocol req) in
  if String.prefix "bearer," proto then
    match after_first ","%char (list_ascii_of_string proto) with
    | Some rest =>
        accept req (Some (string_of_list_ascii (strip is_space rest)))
    | None => AcceptError
    end
  else
    match query_token req with
    | Some t => accept req (Some t)
    | None =>
        match hdr_authorization req with
        | Some auth =>
            if negb (is_empty auth)
               && String.prefix "bearer "
                    (string_of_list_ascii
                       (List.map lower (list_ascii_of_string auth)))
            then
              match after_first " "%char (list_ascii_of_string auth) with
              | Some rest => accept req (Some (string_of_list_ascii rest))
              | None => AcceptError
              end
            else accept req None
        | None => accept req None
        end
    end.

(** Sockets are compared by identity. *)
Definition same_socket (a b : WebSocket) : bool :=
  Nat.eqb (ws_id a) (ws_id b).

(** [conns.add(ws)] and [conns.discard(ws)] on a set of sockets. *)
Definition set_add (ws : WebSocket) (conns : list WebSocket)
  : list WebSocket :=
  if existsb (same_socket ws) conns then conns else conns ++ [ws].

Definition set_discard (ws : WebSocket) (conns : list WebSocket)
  : list WebSocket :=
  List.filter (fun w => negb (same_socket ws w)) conns.

(** [d.pop(k, None)] *)
Definition dict_pop {V} (k : string) (d : Dict.t V) : Dict.t V :=
  List.filter (fun kv => negb (String.eqb (fst kv) k)) d.

(** [active_ws_connections.setdefault(user_key, set()).add(websocket)] *)
Definition register_socket (user_key : string) (ws : WebSocket)
    (registry : list (string * list WebSocket))
  : list (string * list WebSocket) :=
  match Dict.get registry user_key with
  | Some conns => Dict.set user_key (set_add ws conns) registry
  | None => Dict.set user_key [ws] registry
  end.

(** The [finally] of [ws_endpoint]. *)
Definition unregister_socket (user_key : string) (ws : WebSocket)
    (registry : list (string * list WebSocket))
  : list (string * list WebSocket) :=
  match Dict.get registry user_key with
  | Some (c :: cs) =>
      match set_discard ws (c :: cs) with
      | [] => dict_pop user_key registry
      | conns => Dict.set user_key conns registry
      end
  | Some [] => registry
  | None => registry
  end.

(** How [ws_endpoint] gets to its keepalive loop, or does not. *)
Inductive WsOpen : Type :=
| (** the handler returned after a failed [accept] *)
  WsReturned
| (** [websocket.close(code=...)] *)
  WsClosed (code : Z)
| (** the socket was registered; the new socket and registry *)
  WsRegistered (ws : WebSocket) (registry : list (string * list WebSocket)).

Definition WS_1008_POLICY_VIOLATION : Z := 1008.

(** The body of [ws_endpoint] up to the keepalive loop, for any way of
    turning a token into a user.  [uuid_str] is [str] on a UUID and
    [fresh] identifies the new socket object. *)
Definition ws_endpoint_open (plc_config : list PlcConfigItem)
    (PARKS : gmap string ParkInfo) (table : Table)
    (user_from_token : string -> option User.t) (uuid_str : N -> string)
    (fresh : nat) (req : WsRequest)
    (registry : list (string * list WebSocket)) : WsOpen :=
  match extract_token req with
  | AcceptError => WsReturned
  | Accepted None => WsClosed WS_1008_POLICY_VIOLATION
  | Accepted (Some token) =>
      if is_empty token then WsClosed WS_1008_POLICY_VIOLATION
      else
        match user_from_token token with
        | None => WsClosed WS_1008_POLICY_VIOLATION
        | Some user =>
            if negb (User.is_active user)
            then WsClosed WS_1008_POLICY_VIOLATION
            else
              let ws :=
                mkWebSocket fresh
                  (Some (ws_allowed_urls plc_config PARKS table user)) in
              WsRegistered ws
                (register_socket (uuid_str (User.id user)) ws registry)
        end
  end.

(** ** [user_from_token] and [ws_endpoint] *)

(** What [jwt_strategy.read_token(token, None)] does.  The strategy is
    the [JWTStrategy] of fastapi-users, whose [read_token] answers
    [None] for a token it cannot decode and otherwise asks the user
    manager, here [None], for the user. *)
Inductive ReadToken : Type :=
| (** it returned [None] *)
  ReadToken_None
| (** it returned a user, the result it is declared with *)
  ReadToken_user (user : User.t)
| (** it raised, as the call on the missing manager does *)
  ReadToken_raises (e : string).

(** [payload.get("sub")] is an attribute error on [None] and on a
    user, neither of which is a mapping, so [get_user_by_id] is never
    reached; [except Exception] turns every exception into [None]. *)
Definition user_from_token (read_token : string -> ReadToken)
    (token : string) : option User.t :=
  match read_token token with
  | ReadToken_None => None
  | ReadToken_user _ => None
  | ReadToken_raises _ => None
  end.

(** [ws_endpoint] up to the keepalive loop. *)
Definition ws_endpoint (plc_config : list PlcConfigItem)
    (PARKS : gmap string ParkInfo) (table : Table)
    (read_token : string -> ReadToken) (uuid_str : N -> string)
    (fresh : nat) (req : WsRequest)
    (registry : list (string * list WebSocket)) : WsOpen :=
  ws_endpoint_open plc_config PARKS table (user_from_token read_token)
    uuid_str fresh req registry.

(** ** The application as a whole *)

(** What reaches the global state of [main.py] once [on_startup] has
    run.  A request is served against the access table as it stands
    then. *)
Inductive Request : Type :=
| (** one iteration of [data_broadcast_loop] *)
  Iteration (env : TickEnv)
| (** a connection to [/ws], up to the keepalive loop *)
  Connection (table : Table) (read_token : string -> ReadToken)
    (fresh : nat) (req : WsRequest)
| (** the [finally] of a [ws_endpoint] that had registered [ws] *)
  Disconnection (user_key : string) (ws : WebSocket)
| (** [GET /data] by an authenticated user *)
  Pull (table : Table) (user : User.t) (read : nat -> GetValues).

(** [PLC_CONFIG], [PLC_RECONNECT_DELAY_MINUTES] and [PARKS] are read
    once, from the same config.json. *)
Definition serve (PLC_CONFIG : list PlcConfigItem)
    (PLC_RECONNECT_DELAY_MINUTES : Z) (uuid_str : N -> string)
    (s : Server) (r : Request) : Server * list TickReport :=
  match r with
  | Iteration env =>
      let out := tick (timedelta_minutes PLC_RECONNECT_DELAY_MINUTES) env s in
      (fst out, [snd out])
  | Connection table read_token fresh req =>
      match ws_endpoint PLC_CONFIG (build_PARKS slugify PLC_CONFIG) table
              read_token uuid_str fresh req (active_ws_connections s) with
      | WsRegistered _ registry =>
          ({| plc_clients := plc_clients s;
              active_ws_connections := registry |}, [])
      | WsReturned => (s, [])
      | WsClosed _ => (s, [])
      end
  | Disconnection user_key ws =>
      ({| plc_clients := plc_clients s;
          active_ws_connections :=
            unregister_socket user_key ws (active_ws_connections s) |}, [])
  | Pull table user read =>
      ({| plc_clients :=
            fst (get_initial_data PLC_CONFIG (build_PARKS slugify PLC_CONFIG)
                   table read (plc_clients s) user);
          active_ws_connections := active_ws_connections s |}, [])
  end.

(** The requests of a run, one after the other, and the reports of its
    iterations. *)
Fixpoint serve_all (PLC_CONFIG : list PlcConfigItem)
    (PLC_RECONNECT_DELAY_MINUTES : Z) (uuid_str : N -> string)
    (rs : list Request) (s : Server) : Server * list TickReport :=
  match rs with
  | [] => (s, [])
  | r :: rs' =>
      let out := serve PLC_CONFIG PLC_RECONNECT_DELAY_MINUTES uuid_str s r in
      let rest :=
        serve_all PLC_CONFIG PLC_RECONNECT_DELAY_MINUTES uuid_str rs'
          (fst out) in
      (fst rest, snd out ++ snd rest)
  end.

(** The state [on_startup] leaves: [active_ws_connections] is the
    empty dictionary of the module. *)
Definition startup (PLC_CONFIG : list PlcConfigItem)
    (COMMON_ROOT_NODE_ID : string) : Server :=
  {| plc_clients := on_startup PLC_CONFIG COMMON_ROOT_NODE_ID;
     active_ws_connections := [] |}.

(** ** [revoke_user_park] *)

(** [delete(UserParkAccess).where(user_id == ..., park_id == ...)] *)
Definition revoke_user_park (user_id : N) (park_id : string) (table : Table)
  : Table :=
  List.filter (fun r => negb (grant_matches user_id park_id r)) table.

(** ** Notions for the properties below *)

(** The nodes [_get_readable_nodes] visits, in the order of its
    visits. *)
Fixpoint visited (node : UaNode) : list UaNode :=
  node ::
  match get_children node with
  | Some children => flat_map visited children
  | None => []
  end.

(** A node that the traversal records under the name [k]. *)
Definition readable_as (k : string) (node : UaNode) : Prop :=
  get_node_class node = Some NodeClass_Variable
  ∧ get_browse_name node = Some k.

(** The characters of a slug. *)
Definition slug_ok (c : ascii) : bool :=
  is_slug_char c || Ascii.eqb "_"%char c.

(** No two underscores in a row. *)
Fixpoint no_double_underscore (s : list ascii) : Prop :=
  match s with
  | c :: (d :: _) as s' =>
      ¬ (c = "_"%char ∧ d = "_"%char) ∧ no_double_underscore s'
  | _ => True
  end.

(** The park id the loop of [parks.py] files an entry under, and the
    entry it files. *)
Definition park_id_of (slug : string -> string) (item : PlcConfigItem)
  : string :=
  if is_empty (or_empty (cfg_id item)) then slug (or_empty (cfg_name item))
  else or_empty (cfg_id item).

Definition park_info_of (slug : string -> string) (item : PlcConfigItem)
  : ParkInfo :=
  {| park_name := if is_empty (or_empty (cfg_name item))
                  then park_id_of slug item
                  else or_empty (cfg_name item);
     park_url := or_empty (cfg_url item) |}.

(** The rows of a user and a park. *)
Definition rows_of (user_id : N) (park_id : string) (table : Table)
  : list UserParkAccess.t :=
  List.filter (grant_matches user_id park_id) table.

(** What [get_initial_data] comes to, device by device: a device whose
    url is allowed is read where it stands, the others are passed
    over; [i] is the position of the head of [clients]. *)
Fixpoint read_visible (read : nat -> GetValues) (allowed : gset string)
    (i : nat) (clients : list OpcUaClient)
  : list OpcUaClient * list Snapshot :=
  match clients with
  | [] => ([], [])
  | p :: ps =>
      let rest := read_visible read allowed (S i) ps in
      if bool_decide (url p ∈ allowed)
      then (state_of (read_data (read i) p) :: fst rest,
            result_of (read_data (read i) p) :: snd rest)
      else (p :: fst rest, snd rest)
  end.

(** The shape of a slug: not empty, made of [a-z0-9_], with no
    underscore at either end and no two in a row. *)
Definition slug_shape (s : list ascii) : Prop :=
  s ≠ []
  ∧ Forall (fun c => slug_ok c = true) s
  ∧ hd_error s ≠ Some "_"%char
  ∧ hd_error (rev s) ≠ Some "_"%char
  ∧ no_double_underscore s.

(** ** More scenarios *)

(** An address space with two variables, one of them in a folder, and
    a node that answers nothing. *)
Definition setpoint_node : UaNode :=
  mkUaNode (Some NodeClass_Variable) (Some "Setpoint") (Some [])
    (Some VT_Int32).

Definition level_node : UaNode :=
  mkUaNode (Some NodeClass_Variable) (Some "Level") (Some [])
    (Some VT_Double).

Definition plant_tree : UaNode :=
  mkUaNode (Some NodeClass_Object) (Some "Root")
    (Some [setpoint_node;
           mkUaNode None None None None;
           mkUaNode (Some NodeClass_Object) (Some "Tank")
             (Some [level_node]) None])
    None.

(** A server that accepts the connection and shows [plant_tree]. *)
Definition plant_env : ConnectEnv :=
  mkConnectEnv true (Some (Some "plc")) (Some plant_tree).

(** One connected device and nobody listening. *)
Definition running_server : Server :=
  {| plc_clients := [connected_device]; active_ws_connections := [] |}.

(** Requests that carry the token [abc], and one that carries none. *)
Definition subprotocol_request : WsRequest :=
  mkWsRequest (Some "bearer, abc ") (Some "ignored") None false.

Definition header_request : WsRequest :=
  mkWsRequest None None (Some "BeArEr abc") false.

(** The user of [granted_once], who is not a superuser. *)
Definition granted_user : User.t := User.mk 7 false true.

(** A request with credentials of another scheme. *)
Definition basic_request : WsRequest :=
  mkWsRequest None None (Some "Basic abc") false.

(** A url whose bracket is not closed, and the constructor that
    rejects it. *)
Definition open_bracket : string := "opc.tcp://[::1".

Definition rejects_open_bracket (u : string) : option string :=
  if String.eqb u open_bracket then Some "Invalid IPv6 URL" else None.

(** A decoder that knows the token [abc] and, having no user manager,
    raises on it. *)
Definition knows_abc (token : string) : ReadToken :=
  if String.eqb token "abc"
  then ReadToken_raises "'NoneType' object has no attribute 'parse_id'"
  else ReadToken_None.

(** A morning of the application: a handshake, an iteration, a pull, a
    disconnection, an iteration. *)
Definition morning : list Request :=
  [Connection granted_once knows_abc 1 header_request;
   Iteration (unreachable_at 0);
   Pull granted_once granted_user (fun _ => RaisesOther []);
   Disconnection "7" (mkWebSocket 1 (Some ∅));
   Iteration (unreachable_at 1)].

(** * Properties of the supervisor *)

(** Unfolds the supervisor monad down to pairs. *)
Ltac dev_unfold :=
  unfold mbind, mret, Dev_bind, Dev_ret, self, set_last_reconnect_attempt,
    set_client, set_nodes, set_server_name, set_status;
  cbn [result_of state_of journal_of fst snd app
       url name server_name root_node_id client nodes status
       last_reconnect_attempt].

(** The journal of one attempt: through [CONNECTING] to the final status. *)
Lemma connect_and_discover_journal now env p :
  journal_of (connect_and_discover now env p)
  = [CONNECTING; if connect_succeeds env then CONNECTED else DISCONNECTED].
Proof.
  destruct env as [[] sn [root|]]; reflexivity.
Qed.

(** An attempt leaves the identity of the device alone. *)
Lemma connect_and_discover_identity now env p :
  let p' := state_of (connect_and_discover now env p) in
  url p' = url p ∧ name p' = name p ∧ root_node_id p' = root_node_id p.
Proof.
  destruct env as [[] sn [root|]]; cbv zeta; auto.
Qed.

(** The status an attempt ends in. *)
Lemma connect_and_discover_status now env p :
  status (state_of (connect_and_discover now env p))
  = if connect_succeeds env then CONNECTED else DISCONNECTED.
Proof.
  destruct env as [[] sn [root|]]; reflexivity.
Qed.

(** The time stamp an attempt leaves. *)
Lemma connect_and_discover_stamp now env p :
  last_reconnect_attempt (state_of (connect_and_discover now env p))
  = Some now.
Proof.
  destruct env as [[] sn [root|]]; reflexivity.
Qed.

(** Once the client is constructed, the attempt stamps
    [last_reconnect_attempt] with the time of the call; it returns
    [True] exactly when the attempt succeeds; on success the status is
    [CONNECTED] and the node map is the one just discovered from the
    root; on failure the status is [DISCONNECTED] and the client handle
    is [None]. *)
Lemma connect_and_discover_outcome now env p :
  let r := connect_and_discover now env p in
  last_reconnect_attempt (state_of r) = Some now
  ∧ result_of r = connect_succeeds env
  ∧ (if result_of r
     then status (state_of r) = CONNECTED
          ∧ (_get_readable_nodes <$> root_node env) = Some (nodes (state_of r))
          ∧ client (state_of r) = Some (mkClient (url p) 40)
     else status (state_of r) = DISCONNECTED
          ∧ client (state_of r) = None).
Proof.
  destruct env as [[] sn [root|]]; cbv zeta;
    (split; [reflexivity|]); (split; [reflexivity|]);
    change (result_of (connect_and_discover now _ p)) with true
    || change (result_of (connect_and_discover now _ p)) with false;
    cbv iota; repeat split; reflexivity.
Qed.



(** C6. On a device that is not [CONNECTED], or that has no client
    handle, [read_data] returns the snapshot made of the device's name,
    current status and url, with no node value and no error; the device
    is left as it was and its status is not assigned. *)
Theorem read_data_not_connected env p :
  status p ≠ CONNECTED ∨ client p = None →
  read_data env p
  = ({| snap_name := name p; snap_status := status_value (status p);
        snap_url := url p; snap_nodes := []; snap_error := None |}, p, []).
Proof.
  intros H. unfold read_data. dev_unfold.
  destruct H as [H | H].
  - rewrite (bool_decide_eq_false_2 _ H). reflexivity.
  - rewrite H. destruct (bool_decide (status p = CONNECTED)); reflexivity.
Qed.

Lemma read_data_not_connected_witness :
  read_data (RaisesOther [])
    (OpcUaClient_init "opc.tcp://a:4840" "Park A" "ns=2;s=Root")
  = ({| snap_name := "Park A"; snap_status := "DISCONNECTED";
        snap_url := "opc.tcp://a:4840"; snap_nodes := [];
        snap_error := None |},
     OpcUaClient_init "opc.tcp://a:4840" "Park A" "ns=2;s=Root", []).
Proof.
  apply (read_data_not_connected (RaisesOther [])
           (OpcUaClient_init "opc.tcp://a:4840" "Park A" "ns=2;s=Root")).
  left. discriminate.
Defined.

(** On a connected device with a client and at least one node, the
    read is really issued and its outcome decides. *)
Lemma read_data_connected env p c :
  status p = CONNECTED → client p = Some c → nodes p ≠ [] →
  read_data env p
  = let data := {| snap_name := name p; snap_status := "CONNECTED";
                   snap_url := url p; snap_nodes := [];
                   snap_error := None |} in
    match env with
    | Values vs => (store_values (Dict.keys (nodes p)) vs data, p, [])
    | RaisesUaStatusCodeError e =>
        (with_error data (String.append "OPC UA read error: " e),
         state_of (set_status ERROR p), [ERROR])
    | RaisesOther stored =>
        (with_error (store_values (Dict.keys (nodes p)) stored data)
           "Temporary read failure.", p, [])
    end.
Proof.
  intros Hs Hc Hn. destruct p as [u n sn r cl nd st l]; simpl in *; subst.
  unfold read_data. dev_unfold. simpl.
  rewrite ?bool_decide_eq_true_2 by eauto. simpl.
  destruct nd as [|kv d]; [congruence|].
  destruct env; reflexivity.
Qed.

Lemma store_values_error names vs data :
  snap_error (store_values names vs data) = snap_error data.
Proof.
  unfold store_values. revert data.
  induction (zip names vs) as [|nv l IH]; intros data; simpl; [done|].
  by rewrite IH.
Qed.

(** C7. On a connected device whose read is issued, a failure is
    handled in two tiers, and [read_data] returns a snapshot in both:
    a [UaStatusCodeError] sets the status to [ERROR] (and nothing else)
    and puts ["OPC UA read error: ..."] into the snapshot; any other
    exception leaves the whole device, status included, as it was and
    puts ["Temporary read failure."] into the snapshot. *)
Theorem read_data_failure_tiers p c :
  status p = CONNECTED → client p = Some c → nodes p ≠ [] →
  (∀ e,
     let r := read_data (RaisesUaStatusCodeError e) p in
     status (state_of r) = ERROR
     ∧ state_of r = state_of (set_status ERROR p)
     ∧ snap_error (result_of r)
       = Some (String.append "OPC UA read error: " e))
  ∧ (∀ stored,
       let r := read_data (RaisesOther stored) p in
       state_of r = p
       ∧ journal_of r = []
       ∧ snap_error (result_of r) = Some "Temporary read failure.").
Proof.
  intros Hs Hc Hn. split; intros x r; subst r;
    rewrite (read_data_connected _ p c Hs Hc Hn); simpl; auto.
Qed.

Lemma read_data_failure_tiers_witness :
  status (state_of (read_data (RaisesUaStatusCodeError "BadTimeout")
                      connected_device)) = ERROR
  ∧ state_of (read_data (RaisesOther []) connected_device) = connected_device.
Proof.
  destruct (read_data_failure_tiers connected_device
              (mkClient "opc.tcp://a:4840" 40)) as [Hua Hother].
  - reflexivity.
  - reflexivity.
  - discriminate.
  - split.
    + apply (Hua "BadTimeout").
    + apply (Hother []).
Defined.

(** ** The status state machine *)

Lemma last_cons_default (j : list ConnectionStatus) a d d' :
  List.last (a :: j) d = List.last (a :: j) d'.
Proof.
  revert a. induction j as [|b j IH]; intros a; [reflexivity|].
  change (List.last (a :: b :: j) d) with (List.last (b :: j) d).
  change (List.last (a :: b :: j) d') with (List.last (b :: j) d').
  apply IH.
Qed.

Lemma last_cons (j : list ConnectionStatus) s prev :
  List.last (s :: j) prev = List.last j s.
Proof.
  destruct j as [|a j]; [reflexivity|].
  change (List.last (s :: a :: j) prev) with (List.last (a :: j) prev).
  apply last_cons_default.
Qed.

Lemma guarded_app prev j1 j2 :
  guarded prev (j1 ++ j2) ↔ guarded prev j1 ∧ guarded (List.last j1 prev) j2.
Proof.
  revert prev. induction j1 as [|s j1 IH]; intros prev.
  - simpl. tauto.
  - change ((s :: j1) ++ j2) with (s :: (j1 ++ j2)).
    rewrite last_cons. simpl. rewrite IH. tauto.
Qed.

(** Reading [ERROR] right after [s] in a guarded journal forces [s]. *)
Lemma guarded_split prev before s after :
  guarded prev (before ++ s :: ERROR :: after) → s = CONNECTED.
Proof.
  rewrite guarded_app. intros [_ H]. simpl in H. tauto.
Qed.

(** The journal of [read_data]: at most one assignment, of [ERROR],
    and only on a connected device. *)
Lemma read_data_journal env p :
  let r := read_data env p in
  (journal_of r = [] ∧ state_of r = p)
  ∨ (journal_of r = [ERROR] ∧ status p = CONNECTED
     ∧ status (state_of r) = ERROR).
Proof.
  destruct p as [u n sn r [c|] [|kv d] [] l]; destruct env; cbv zeta;
    first [ left; split; reflexivity
          | right; split; [reflexivity|]; split; reflexivity ].
Qed.

(** One call: its journal is guarded from the status it starts in, and
    the device ends in the last status assigned. *)
Lemma call_guarded c p :
  guarded (status p) (journal_of (call c p))
  ∧ status (state_of (call c p)) = List.last (journal_of (call c p)) (status p).
Proof.
  destruct c as [now env|env].
  - pose proof (connect_and_discover_journal now env p) as Hj.
    pose proof (connect_and_discover_status now env p) as Hst.
    unfold call. revert Hj Hst.
    unfold mbind, mret, Dev_bind, Dev_ret.
    destruct (connect_and_discover now env p) as [[b p'] j].
    unfold state_of, journal_of, result_of. simpl.
    intros -> ->.
    destruct (connect_succeeds env); simpl; intuition congruence.
  - pose proof (read_data_journal env p) as Hj. cbv zeta in Hj.
    unfold call. revert Hj.
    unfold mbind, mret, Dev_bind, Dev_ret.
    destruct (read_data env p) as [[d p'] j].
    unfold state_of, journal_of, result_of. simpl.
    intros [[-> ->] | (-> & Hs & He)]; simpl; auto.
Qed.

Lemma calls_guarded cs p :
  guarded (status p) (journal_of (calls cs p)).
Proof.
  revert p. induction cs as [|c cs IH]; intros p; [exact I|].
  destruct (call_guarded c p) as [Hg Hl].
  specialize (IH (state_of (call c p))).
  change (calls (c :: cs)) with (call c ≫= λ _, calls cs).
  revert Hg Hl IH. unfold mbind, Dev_bind.
  destruct (call c p) as [[u p1] j1].
  unfold state_of, journal_of, result_of. simpl.
  destruct (calls cs p1) as [[u2 p2] j2]. simpl.
  intros Hg Hl IH. apply guarded_app. split; [done|]. by rewrite <- Hl.
Qed.

(** C5. Along any sequence of [connect_and_discover] and [read_data]
    calls on a device, under any behaviour of the server, whenever
    [ERROR] follows a status [s] in the device's status history, [s] is
    [CONNECTED]: a device never goes from [DISCONNECTED] (nor from
    [CONNECTING] or [ERROR]) to [ERROR]. *)
Theorem error_only_from_connected cs p before s after :
  status_history cs p = before ++ s :: ERROR :: after → s = CONNECTED.
Proof.
  unfold status_history. intros H.
  pose proof (calls_guarded cs p) as Hg.
  destruct before as [|b before].
  - simpl in H. injection H as Hs Hj. rewrite Hj, Hs in Hg.
    simpl in Hg. tauto.
  - change ((b :: before) ++ s :: ERROR :: after)
      with (b :: (before ++ s :: ERROR :: after)) in H.
    injection H as Hs Hj. rewrite Hj in Hg.
    by apply guarded_split in Hg.
Qed.

Lemma error_only_from_connected_witness :
  status_history error_run (OpcUaClient_init "opc.tcp://a:4840" "A" "r")
  = [DISCONNECTED; CONNECTING; DISCONNECTED; CONNECTING] ++
    CONNECTED :: ERROR :: []
  ∧ CONNECTED = CONNECTED.
Proof.
  split; [reflexivity|].
  apply (error_only_from_connected error_run
           (OpcUaClient_init "opc.tcp://a:4840" "A" "r")
           [DISCONNECTED; CONNECTING; DISCONNECTED; CONNECTING]
           CONNECTED []).
  reflexivity.
Defined.

(** * Properties of the broadcast loop *)

(** ** The reconnect sweep *)

Lemma elem_of_reconnect_list_from delay env i clients j :
  j ∈ reconnect_list_from delay env i clients
  ↔ (i ≤ j)%nat
    ∧ ∃ p, clients !! (j - i)%nat = Some p
           ∧ needs_reconnect delay (now_check env j) p = true.
Proof.
  revert i. induction clients as [|q qs IH]; intros i; simpl.
  - split; [by intros ?%elem_of_nil | by intros (_ & p & ? & _)].
  - assert (Hrec : j ∈ reconnect_list_from delay env (S i) qs
                   ↔ (i < j)%nat
                     ∧ ∃ p, (q :: qs) !! (j - i)%nat = Some p
                            ∧ needs_reconnect delay (now_check env j) p = true).
    { rewrite IH. split.
      - intros (Hle & p & Hp & Hn). split; [lia|]. exists p. split; [|done].
        replace (j - i)%nat with (S (j - S i)) by lia. done.
      - intros (Hlt & p & Hp & Hn). split; [lia|]. exists p. split; [|done].
        replace (j - i)%nat with (S (j - S i)) in Hp by lia. done. }
    destruct (needs_reconnect delay (now_check env i) q) eqn:Hq.
    + rewrite elem_of_cons, Hrec. split.
      * intros [-> | (Hlt & Hp)].
        -- split; [lia|]. exists q. by rewrite Nat.sub_diag.
        -- split; [lia | done].
      * intros (Hle & p & Hp & Hn).
        destruct (decide (j = i)) as [->|Hne]; [by left|].
        right. split; [lia | eauto].
    + rewrite Hrec. split.
      * intros (Hlt & Hp). split; [lia | done].
      * intros (Hle & p & Hp & Hn).
        destruct (decide (j = i)) as [->|Hne].
        -- rewrite Nat.sub_diag in Hp. simpl in Hp. congruence.
        -- split; [lia | eauto].
Qed.

(** A device is in [reconnect_list] exactly when the condition of the
    comprehension holds of it. *)
Lemma elem_of_reconnect_list delay env clients j :
  j ∈ reconnect_list delay env clients
  ↔ ∃ p, clients !! j = Some p
         ∧ needs_reconnect delay (now_check env j) p = true.
Proof.
  unfold reconnect_list. rewrite elem_of_reconnect_list_from.
  rewrite Nat.sub_0_r. split; [by intros [_ ?] | split; [lia | done]].
Qed.

Lemma connect_one_length env clients i :
  length (connect_one env clients i) = length clients.
Proof.
  unfold connect_one. destruct (clients !! i); [|done]. apply length_insert.
Qed.

Lemma connect_one_lookup env clients i j :
  connect_one env clients i !! j
  = if decide (i = j)
    then (fun p => state_of (connect_and_discover (now_connect env i)
                               (connect_env env i) p)) <$> clients !! j
    else clients !! j.
Proof.
  unfold connect_one. destruct (decide (i = j)) as [->|Hne].
  - destruct (clients !! j) as [p|] eqn:Hp; simpl.
    + apply list_lookup_insert_eq. by eapply lookup_lt_Some.
    + done.
  - destruct (clients !! i); [|done]. by apply list_lookup_insert_ne.
Qed.

(** A device that is not referenced is not touched by the sweep. *)
Lemma connect_sweep_lookup_notin env refs clients j :
  j ∉ refs → connect_sweep env refs clients !! j = clients !! j.
Proof.
  unfold connect_sweep. revert clients.
  induction refs as [|i refs IH]; intros clients Hj; [done|].
  apply not_elem_of_cons in Hj as [Hne Hj]. simpl.
  rewrite IH by done. rewrite connect_one_lookup.
  destruct (decide (i = j)); congruence.
Qed.

(** A device that is referenced once is attempted once. *)
Lemma connect_sweep_lookup_in env refs clients j :
  NoDup refs → j ∈ refs →
  connect_sweep env refs clients !! j
  = (fun p => state_of (connect_and_discover (now_connect env j)
                          (connect_env env j) p)) <$> clients !! j.
Proof.
  unfold connect_sweep. revert clients.
  induction refs as [|i refs IH]; intros clients Hnd Hj.
  - by apply elem_of_nil in Hj.
  - apply NoDup_cons in Hnd as [Hi Hnd]. simpl.
    apply elem_of_cons in Hj as [->|Hj].
    + change (fold_left (connect_one env) refs (connect_one env clients i))
        with (connect_sweep env refs (connect_one env clients i)).
      rewrite connect_sweep_lookup_notin by done.
      rewrite connect_one_lookup. by rewrite decide_True.
    + rewrite IH by done. rewrite connect_one_lookup.
      rewrite decide_False; [done|]. intros ->. done.
Qed.

Lemma reconnect_list_from_lower delay env i clients j :
  j ∈ reconnect_list_from delay env i clients → (i ≤ j)%nat.
Proof. rewrite elem_of_reconnect_list_from. tauto. Qed.

Lemma reconnect_list_NoDup delay env clients :
  NoDup (reconnect_list delay env clients).
Proof.
  unfold reconnect_list. generalize 0%nat.
  induction clients as [|q qs IH]; intros i; simpl; [constructor|].
  destruct (needs_reconnect _ _ _); [|apply IH].
  constructor; [|apply IH].
  intros H%reconnect_list_from_lower. lia.
Qed.

(** ** The read sweep *)

Lemma read_sweep_state_lookup env clients i :
  (state_of <$> read_sweep env clients) !! i
  = (fun p => state_of (read_data (read_env env i) p)) <$> clients !! i.
Proof.
  unfold read_sweep. rewrite list_lookup_fmap, list_lookup_imap.
  by destruct (clients !! i).
Qed.

(** [read_data] never writes [last_reconnect_attempt]. *)
Lemma read_data_last_reconnect_attempt env p :
  last_reconnect_attempt (state_of (read_data env p))
  = last_reconnect_attempt p.
Proof.
  destruct p as [u n sn r [c|] [|kv d] [] l]; destruct env; reflexivity.
Qed.

(** The state of device [i] after an iteration, by whether it was
    referenced in [reconnect_list]. *)
Lemma tick_lookup delay env s i :
  plc_clients (tick delay env s).1 !! i
  = (fun p =>
       state_of
         (read_data (read_env env i)
            (if bool_decide (i ∈ attempted (tick delay env s).2)
             then state_of (connect_and_discover (now_connect env i)
                              (connect_env env i) p)
             else p))) <$> plc_clients s !! i.
Proof.
  unfold tick. simpl. rewrite read_sweep_state_lookup.
  destruct (decide (i ∈ reconnect_list delay env (plc_clients s))) as [Hi|Hi].
  - rewrite bool_decide_eq_true_2 by done.
    rewrite connect_sweep_lookup_in
      by (done || apply reconnect_list_NoDup).
    by destruct (plc_clients s !! i).
  - rewrite bool_decide_eq_false_2 by done.
    rewrite connect_sweep_lookup_notin by done.
    by destruct (plc_clients s !! i).
Qed.

(** ** Cooldown *)

Lemma needs_reconnect_within delay now p last :
  last_reconnect_attempt p = Some last → now - last ≤ delay →
  needs_reconnect delay now p = false.
Proof.
  intros Hl Hw. unfold needs_reconnect. rewrite Hl.
  rewrite (bool_decide_eq_false_2 (now - last > delay)) by lia.
  apply andb_false_r.
Qed.

Lemma needs_reconnect_elapsed delay now p :
  status p = DISCONNECTED ∨ status p = ERROR →
  last_reconnect_attempt p = None
  ∨ (∃ last, last_reconnect_attempt p = Some last ∧ now - last > delay) →
  needs_reconnect delay now p = true.
Proof.
  intros Hs Hl. unfold needs_reconnect.
  assert ((bool_decide (status p = DISCONNECTED)
           || bool_decide (status p = ERROR)) = true) as ->.
  { destruct Hs as [-> | ->]; reflexivity. }
  destruct Hl as [-> | (last & -> & Hgt)]; [done|].
  by rewrite bool_decide_eq_true_2.
Qed.

(** Inside the window an iteration leaves the device unattempted and
    its time stamp as it was. *)
Lemma tick_within_window delay env s i p last :
  plc_clients s !! i = Some p →
  last_reconnect_attempt p = Some last →
  now_check env i - last ≤ delay →
  (i ∉ attempted (snd (tick delay env s)))
  ∧ ∃ p', plc_clients (fst (tick delay env s)) !! i = Some p'
          ∧ last_reconnect_attempt p' = Some last.
Proof.
  intros Hp Hl Hw.
  assert (Hi : i ∉ attempted (snd (tick delay env s))).
  { simpl. rewrite elem_of_reconnect_list. intros (q & Hq & Hn).
    assert (q = p) as -> by congruence.
    rewrite (needs_reconnect_within _ _ _ _ Hl Hw) in Hn. done. }
  split; [done|].
  rewrite tick_lookup, Hp. rewrite bool_decide_eq_false_2 by done.
  eexists. split; [reflexivity|].
  by rewrite read_data_last_reconnect_attempt.
Qed.

Lemma data_broadcast_loop_cons minutes env envs s :
  data_broadcast_loop minutes (env :: envs) s
  = let t := tick (timedelta_minutes minutes) env s in
    let rest := data_broadcast_loop minutes envs t.1 in
    (rest.1, t.2 :: rest.2).
Proof.
  cbn [data_broadcast_loop].
  destruct (tick (timedelta_minutes minutes) env s) as [s1 r].
  cbn [fst snd]. by destruct (data_broadcast_loop minutes envs s1).
Qed.

Lemma loop_within_window minutes envs s i p last :
  plc_clients s !! i = Some p →
  last_reconnect_attempt p = Some last →
  Forall (fun e => now_check e i - last ≤ timedelta_minutes minutes) envs →
  Forall (fun r => i ∉ attempted r) (data_broadcast_loop minutes envs s).2.
Proof.
  revert s p. induction envs as [|env envs IH]; intros s p Hp Hl Hw.
  - constructor.
  - apply Forall_cons in Hw as [Hw Hws].
    destruct (tick_within_window _ env s i p last Hp Hl Hw)
      as (Hi & p' & Hp' & Hl').
    specialize (IH (tick (timedelta_minutes minutes) env s).1 p' Hp' Hl' Hws).
    rewrite data_broadcast_loop_cons. cbv zeta. cbn [snd].
    by constructor.
Qed.



(** ** Fan-out *)

Lemma elem_of_broadcast env batch registry e :
  e ∈ broadcast env batch registry
  ↔ ∃ uid sockets ws,
      (uid, sockets) ∈ registry ∧ ws ∈ sockets
      ∧ e ∈ send_one env batch uid ws.
Proof.
  unfold broadcast. rewrite list_elem_of_In, in_flat_map. split.
  - intros ([uid sockets] & Hin & He). simpl in He.
    apply in_flat_map in He as (ws & Hws & He).
    exists uid, sockets, ws. by rewrite !list_elem_of_In.
  - intros (uid & sockets & ws & Hin & Hws & He).
    exists (uid, sockets). rewrite <- list_elem_of_In. split; [done|].
    simpl. apply in_flat_map. exists ws. by rewrite <- !list_elem_of_In.
Qed.

(** With a visibility set that is not empty the batch is filtered. *)
Lemma visible_data_restricted (allowed : gset string) batch d :
  allowed ≠ ∅ →
  d ∈ visible_data (Some allowed) batch ↔ d ∈ batch ∧ snap_url d ∈ allowed.
Proof.
  intros Hne. unfold visible_data, truthy.
  rewrite bool_decide_eq_false_2 by done. simpl.
  rewrite list_elem_of_In, filter_In, <- list_elem_of_In.
  by rewrite bool_decide_eq_true.
Qed.

(** With the empty set, as with no set at all, it is not. *)
Lemma visible_data_empty batch : visible_data (Some ∅) batch = batch.
Proof. unfold visible_data, truthy. by rewrite bool_decide_eq_true_2. Qed.

Lemma visible_data_None batch : visible_data None batch = batch.
Proof. reflexivity. Qed.

(** The body of the loop on a registry that no run of the application
    produces (see [ws_endpoint_closes]): were the socket of a user
    without any grant registered, [get_initial_data] would show that
    user no device, but the fan-out would send the socket the snapshots
    of both devices, because the empty set is false in [if allowed]. *)
Lemma broadcast_empty_visibility_unfiltered :
  User.is_superuser ungranted_user = false
  ∧ allowed_urls ungranted_socket = Some ∅
  ∧ get_initial_data_visible ∅ (plc_clients ungranted_server) = []
  ∧ effects (snd (tick (timedelta_minutes 5) (unreachable_at 0)
                    ungranted_server))
    = [Scheduled 1
         (telemetry_update
            [mkSnapshot "Park A" "DISCONNECTED" "opc.tcp://a:4840" [] None;
             mkSnapshot "Park B" "DISCONNECTED" "opc.tcp://b:4840" []
               None])].
Proof.
  split; [reflexivity|]. split; [reflexivity|]. split; [reflexivity|].
  vm_compute. reflexivity.
Qed.

(** * The write endpoint *)

(** The scenario of the specification: [3.0] written to the integral
    tag is recorded as the integer [3]. *)
Lemma write_setpoint_3 :
  write_plc_value server_accepts [setpoint_device]
    (mkWriteRequest "opc.tcp://a:4840" "Setpoint" (V_float (Finite (3 # 1))))
    superuser
  = Success (V_int 3) VT_Int32.
Proof. reflexivity. Qed.

(** C3 as stated fails: [3.5] written to a tag whose representation is
    not integral is not written as it is, but as the integer [3]. *)
Lemma write_float_to_double_truncated :
  is_integral VT_Double = false
  ∧ write_plc_value server_accepts [setpoint_device]
      (mkWriteRequest "opc.tcp://a:4840" "Level" (V_float (Finite (7 # 2))))
      superuser
    = Success (V_int 3) VT_Double
  ∧ V_int 3 ≠ V_float (Finite (7 # 2)).
Proof. split; [reflexivity|]. split; [reflexivity | discriminate]. Qed.

(** C3, amended.  Whenever a write succeeds, the value written is the
    requested one truncated towards zero to an integer if the request
    carried a float, and the requested one unchanged in every other
    case; the representation of the target plays no part in the
    choice, it only tags the variant written. *)
Theorem write_coercion_policy env clients req user v vt :
  write_plc_value env clients req user = Success v vt →
  match value req with
  | V_float x =>
      ∃ q, x = Finite q ∧ v = V_int (Z.quot (Qnum q) (Z.pos (Qden q)))
  | other => v = other
  end
  ∧ ∃ target node,
      List.find (fun p => String.eqb (url p) (plc_url req)) clients
      = Some target
      ∧ Dict.get (nodes target) (node_name req) = Some node
      ∧ get_data_type_as_variant_type node = Some vt.
Proof.
  unfold write_plc_value, write_failed.
  destruct (User.is_superuser user); simpl; [|discriminate].
  destruct (List.find _ clients) as [target|]; [|discriminate].
  destruct (bool_decide (status target = CONNECTED)); simpl; [|discriminate].
  destruct (Dict.get (nodes target) (node_name req)) as [node|] eqn:Hnode;
    [|discriminate].
  destruct (get_data_type_as_variant_type node) as [vt'|] eqn:Hvt;
    [|discriminate].
  intros H. split.
  - destruct (value req) as [[q|neg|]|bs|n|s]; simpl in H;
      destruct (set_attribute_error env); try discriminate;
      injection H as <- <-; eauto.
  - exists target, node. repeat split; [done|].
    rewrite Hvt. f_equal.
    destruct (value req) as [[q|neg|]|bs|n|s]; simpl in H;
      destruct (set_attribute_error env); try discriminate;
      by injection H as <- <-.
Qed.

Lemma write_coercion_policy_witness :
  (∃ q, Finite (3 # 1) = Finite q
        ∧ V_int 3 = V_int (Z.quot (Qnum q) (Z.pos (Qden q))))
  ∧ ∃ target node,
      List.find (fun p => String.eqb (url p) "opc.tcp://a:4840")
        [setpoint_device] = Some target
      ∧ Dict.get (nodes target) "Setpoint" = Some node
      ∧ get_data_type_as_variant_type node = Some VT_Int32.
Proof.
  exact (write_coercion_policy server_accepts [setpoint_device]
           (mkWriteRequest "opc.tcp://a:4840" "Setpoint"
              (V_float (Finite (3 # 1))))
           superuser (V_int 3) VT_Int32 eq_refl).
Defined.

(** * Parks and the access table *)

Section Parks.

Variable slug : string -> string.

Lemma elem_of_config_urls plc_config u :
  u ∈ config_urls plc_config
  ↔ ∃ item, item ∈ plc_config ∧ cfg_url item = Some u.
Proof.
  unfold config_urls. rewrite elem_of_list_to_set, list_elem_of_omap.
  done.
Qed.

Lemma add_park_within PARKS item urls :
  parks_within PARKS urls →
  (∀ u, cfg_url item = Some u → u ∈ urls) →
  parks_within (add_park slug PARKS item) urls.
Proof.
  intros HP Hitem. unfold add_park.
  destruct (is_empty (or_empty (cfg_url item))) eqn:He; [done|].
  intros pid info. rewrite lookup_insert.
  case_decide; [|by apply HP].
  intros [= <-]. simpl. apply Hitem.
  destruct (cfg_url item); [done|]. simpl in He. done.
Qed.

Lemma fold_add_park_within items PARKS urls :
  parks_within PARKS urls →
  (∀ item u, item ∈ items → cfg_url item = Some u → u ∈ urls) →
  parks_within (fold_left (add_park slug) items PARKS) urls.
Proof.
  revert PARKS. induction items as [|item items IH]; intros PARKS HP Hi;
    [done|].
  simpl. apply IH.
  - apply add_park_within; [done|].
    intros u. apply Hi, list_elem_of_here.
  - intros item' u Hin. by apply Hi, list_elem_of_further.
Qed.

(** The endpoints of [PARKS] are endpoints of config.json. *)
Lemma build_PARKS_within plc_config :
  parks_within (build_PARKS slug plc_config) (config_urls plc_config).
Proof.
  apply fold_add_park_within.
  - intros pid info. by rewrite lookup_empty.
  - intros item u Hin Hu. apply elem_of_config_urls. eauto.
Qed.

Lemma map_park_ids_to_urls_fold PARKS park_ids acc urls :
  parks_within PARKS urls → acc ⊆ urls →
  fold_left
    (fun urls pid =>
       match PARKS !! pid with
       | Some info =>
           if is_empty (park_url info) then urls
           else urls ∪ {[park_url info]}
       | None => urls
       end)
    park_ids acc ⊆ urls.
Proof.
  intros HP. revert acc.
  induction park_ids as [|pid park_ids IH]; intros acc Hacc; [done|].
  simpl. apply IH.
  destruct (PARKS !! pid) as [info|] eqn:Hpid; [|done].
  destruct (is_empty (park_url info)); [done|].
  apply union_subseteq. split; [done|].
  apply singleton_subseteq_l. by eapply HP.
Qed.

Lemma map_park_ids_to_urls_within PARKS park_ids urls :
  parks_within PARKS urls → map_park_ids_to_urls PARKS park_ids ⊆ urls.
Proof.
  intros HP. apply map_park_ids_to_urls_fold; [done | set_solver].
Qed.

(** Ids that [PARKS] does not know add nothing to the mapping. *)
Lemma map_park_ids_to_urls_known PARKS park_ids :
  map_park_ids_to_urls PARKS park_ids
  = map_park_ids_to_urls PARKS
      (List.filter (is_valid_park PARKS) park_ids).
Proof.
  unfold map_park_ids_to_urls. generalize (∅ : gset string).
  induction park_ids as [|pid park_ids IH]; intros acc; [done|].
  simpl. unfold is_valid_park at 1.
  destruct (PARKS !! pid) as [info|] eqn:Hpid.
  - rewrite bool_decide_eq_true_2 by eauto. simpl. rewrite Hpid. apply IH.
  - rewrite bool_decide_eq_false_2 by (by intros [? ?]). apply IH.
Qed.

Lemma user_allowed_park_ids_known PARKS table user :
  user_allowed_park_ids PARKS table user ⊆ dom PARKS.
Proof.
  intros pid. unfold user_allowed_park_ids.
  rewrite elem_of_list_to_set, list_elem_of_In, filter_In.
  intros [_ Hvalid]. unfold is_valid_park in Hvalid.
  apply bool_decide_eq_true in Hvalid. by apply elem_of_dom.
Qed.

Lemma ws_allowed_urls_within plc_config PARKS table user :
  parks_within PARKS (config_urls plc_config) →
  ws_allowed_urls plc_config PARKS table user ⊆ config_urls plc_config.
Proof.
  intros HP u. unfold ws_allowed_urls.
  destruct (User.is_superuser user); [done|].
  rewrite elem_of_list_to_set, list_elem_of_omap.
  intros (pid & _ & Hu).
  destruct (PARKS !! pid) as [info|] eqn:Hpid; [|done].
  injection Hu as <-. by eapply HP.
Qed.

(** C9. Whatever the access table grants, the endpoints a user
    resolves to are endpoints of the loaded configuration, through
    [user_allowed_urls] as through the resolution of [ws_endpoint];
    the same holds of [map_park_ids_to_urls] on any list of ids, and
    the ids it does not find in [PARKS] contribute nothing; the park
    ids a user is allowed are all parks of the configuration.  The
    functions are total: no id makes them fail. *)
Theorem visibility_within_configuration plc_config table user park_ids :
  let PARKS := build_PARKS slug plc_config in
  user_allowed_urls PARKS table user ⊆ config_urls plc_config
  ∧ ws_allowed_urls plc_config PARKS table user ⊆ config_urls plc_config
  ∧ map_park_ids_to_urls PARKS park_ids ⊆ config_urls plc_config
  ∧ map_park_ids_to_urls PARKS park_ids
    = map_park_ids_to_urls PARKS (List.filter (is_valid_park PARKS) park_ids)
  ∧ user_allowed_park_ids PARKS table user ⊆ dom PARKS.
Proof.
  intros PARKS. pose proof (build_PARKS_within plc_config) as HP.
  split; [by apply map_park_ids_to_urls_within|].
  split; [by apply ws_allowed_urls_within|].
  split; [by apply map_park_ids_to_urls_within|].
  split; [apply map_park_ids_to_urls_known|].
  apply user_allowed_park_ids_known.
Qed.

End Parks.

(** A grant left over from a park that config.json no longer lists. *)
Lemma stale_grant_is_dropped :
  user_allowed_urls (build_PARKS slugify two_parks)
    [UserParkAccess.mk 1 7 "a"; UserParkAccess.mk 2 7 "closed_park"]
    ungranted_user
  = {["opc.tcp://a:4840"]}.
Proof. vm_compute. reflexivity. Qed.

(** ** Granting a park *)

Lemma grant_matches_spec user_id park_id r :
  grant_matches user_id park_id r = true
  ↔ UserParkAccess.user_id r = user_id ∧ UserParkAccess.park_id r = park_id.
Proof.
  unfold grant_matches.
  rewrite andb_true_iff, N.eqb_eq, String.eqb_eq. done.
Qed.

(** The outcome of a grant, by the rows that already match. *)
Lemma grant_user_park_cases PARKS fresh user_id park_id table :
  grant_user_park PARKS fresh user_id park_id table
  = match PARKS !! park_id with
    | None =>
        (table, NotFound_404 (String.append "Unknown park id: " park_id))
    | Some _ =>
        match List.filter (grant_matches user_id park_id) table with
        | [] =>
            (table ++ [UserParkAccess.mk fresh user_id park_id],
             NoContent_204)
        | [_] => (table, NoContent_204)
        | _ :: _ :: _ => (table, Unhandled "MultipleResultsFound")
        end
    end.
Proof.
  unfold grant_user_park.
  destruct (PARKS !! park_id) as [info|].
  - rewrite bool_decide_eq_true_2 by eauto. simpl.
    change (fun r => N.eqb (UserParkAccess.user_id r) user_id
                     && String.eqb (UserParkAccess.park_id r) park_id)
      with (grant_matches user_id park_id).
    by destruct (List.filter _ table) as [|r [|r' l]].
  - rewrite bool_decide_eq_false_2 by (by intros [? ?]). done.
Qed.

(** C10. Granting is idempotent.  If the table already holds a row for
    the pair, the grant leaves the table as it is; and in every case a
    second grant of the same pair, right after the first, changes
    neither the table nor the response. *)
Theorem grant_user_park_idempotent PARKS fresh fresh' user_id park_id
    (table : Table) :
  let once := grant_user_park PARKS fresh user_id park_id table in
  let twice := grant_user_park PARKS fresh' user_id park_id (fst once) in
  ((∃ r, r ∈ table ∧ UserParkAccess.user_id r = user_id
         ∧ UserParkAccess.park_id r = park_id) →
   fst once = table)
  ∧ twice = once.
Proof.
  intros once twice. subst twice once.
  rewrite !grant_user_park_cases.
  destruct (PARKS !! park_id) as [info|]; [|by split].
  destruct (List.filter (grant_matches user_id park_id) table)
    as [|r0 [|r1 l]] eqn:Hf; simpl.
  - split.
    + intros (r & Hin & Hu & Hp).
      assert (Hr : In r (List.filter (grant_matches user_id park_id) table)).
      { apply filter_In. split; [by apply list_elem_of_In|].
        by apply grant_matches_spec. }
      rewrite Hf in Hr. destruct Hr.
    + rewrite List.filter_app, Hf. simpl.
      assert (grant_matches user_id park_id
                (UserParkAccess.mk fresh user_id park_id) = true) as ->.
      { by apply grant_matches_spec. }
      done.
  - split; [done|]. by rewrite Hf.
  - split; [done|]. by rewrite Hf.
Qed.

Lemma grant_user_park_idempotent_witness :
  fst (grant_user_park (build_PARKS slugify two_parks) 11 7 "a" granted_once)
  = granted_once.
Proof.
  destruct (grant_user_park_idempotent (build_PARKS slugify two_parks)
              11 12 7 "a" granted_once) as [Hsame _].
  apply Hsame. exists (UserParkAccess.mk 10 7 "a").
  split; [apply list_elem_of_here | split; reflexivity].
Defined.

(** Granting a park twice to a user who had none: one row. *)
Lemma grant_twice_one_row :
  get_user_parks
    (fst (grant_user_park (build_PARKS slugify two_parks) 12 7 "a"
            (fst (grant_user_park (build_PARKS slugify two_parks) 11 7 "a"
                    []))))
    7
  = ["a"].
Proof. vm_compute. reflexivity. Qed.

(** * Further properties *)

(** ** Dictionaries *)

Lemma Dict_get_set_eq {V} k (v : V) d : Dict.get (Dict.set k v d) k = Some v.
Proof.
  induction d as [|[k' v'] d IH]; simpl.
  - by rewrite String.eqb_refl.
  - destruct (String.eqb k' k) eqn:E; simpl; rewrite E; [done | apply IH].
Qed.

Lemma Dict_get_set_ne {V} k k' (v : V) d :
  k ≠ k' → Dict.get (Dict.set k v d) k' = Dict.get d k'.
Proof.
  intros Hne. induction d as [|[k0 v0] d IH]; simpl.
  - by apply String.eqb_neq in Hne as ->.
  - destruct (String.eqb k0 k) eqn:E; simpl.
    + apply String.eqb_eq in E as ->.
      by apply String.eqb_neq in Hne as ->.
    + by rewrite IH.
Qed.

Lemma Dict_set_entries {V} k (v : V) d kv :
  kv ∈ Dict.set k v d → kv = (k, v) ∨ kv ∈ d.
Proof.
  induction d as [|[k' v'] d IH]; simpl.
  - intros ->%list_elem_of_singleton. by left.
  - destruct (String.eqb k' k) eqn:E.
    + apply String.eqb_eq in E as ->.
      rewrite !elem_of_cons. intros [->|?]; auto.
    + rewrite !elem_of_cons. intros [->|H]; [auto|].
      destruct (IH H); auto.
Qed.

Lemma Dict_keys_set {V} k (v : V) d k' :
  k' ∈ Dict.keys (Dict.set k v d) ↔ k' = k ∨ k' ∈ Dict.keys d.
Proof.
  unfold Dict.keys. induction d as [|[k0 v0] d IH]; simpl.
  - rewrite list_elem_of_singleton, elem_of_nil. tauto.
  - destruct (String.eqb k0 k) eqn:E; simpl.
    + apply String.eqb_eq in E as ->. rewrite !elem_of_cons. tauto.
    + rewrite !elem_of_cons, IH. tauto.
Qed.

Lemma Dict_set_fresh {V} k (v : V) d :
  k ∉ Dict.keys d → Dict.set k v d = d ++ [(k, v)].
Proof.
  unfold Dict.keys. induction d as [|[k0 v0] d IH]; simpl; [done|].
  rewrite not_elem_of_cons. intros [Hne Hd].
  assert (String.eqb k0 k = false) as -> by (apply String.eqb_neq; congruence).
  by rewrite IH.
Qed.

Lemma Dict_set_NoDup {V} k (v : V) d :
  NoDup (Dict.keys d) → NoDup (Dict.keys (Dict.set k v d)).
Proof.
  unfold Dict.keys. induction d as [|[k0 v0] d IH]; simpl.
  - intros _. apply NoDup_singleton.
  - rewrite NoDup_cons. intros [Hk0 Hd].
    destruct (String.eqb k0 k) eqn:E; simpl.
    + by apply NoDup_cons.
    + apply NoDup_cons. split; [|by apply IH].
      intros [->|Hin]%(Dict_keys_set k v d k0); [|done].
      by rewrite String.eqb_refl in E.
Qed.

Lemma Dict_update_entries {V} (d other : Dict.t V) kv :
  kv ∈ Dict.update d other → kv ∈ d ∨ kv ∈ other.
Proof.
  unfold Dict.update. revert d.
  induction other as [|[k v] other IH]; intros d; simpl; [auto|].
  intros [H|H]%IH; [|right; by apply list_elem_of_further].
  destruct (Dict_set_entries _ _ _ _ H) as [->|?]; [|by left].
  right. apply list_elem_of_here.
Qed.

Lemma Dict_keys_update {V} (d other : Dict.t V) k :
  k ∈ Dict.keys (Dict.update d other)
  ↔ k ∈ Dict.keys d ∨ k ∈ Dict.keys other.
Proof.
  unfold Dict.update. revert d.
  induction other as [|[k0 v0] other IH]; intros d; simpl.
  - change (Dict.keys (@nil (string * V))) with (@nil string).
    rewrite elem_of_nil. tauto.
  - change (Dict.keys ((k0, v0) :: other)) with (k0 :: Dict.keys other).
    rewrite IH, Dict_keys_set, elem_of_cons. tauto.
Qed.

Lemma Dict_update_NoDup {V} (d other : Dict.t V) :
  NoDup (Dict.keys d) → NoDup (Dict.keys (Dict.update d other)).
Proof.
  unfold Dict.update. revert d.
  induction other as [|[k v] other IH]; intros d Hd; simpl; [done|].
  by apply IH, Dict_set_NoDup.
Qed.

Lemma Dict_get_Some_elem {V} (d : Dict.t V) k v :
  Dict.get d k = Some v → (k, v) ∈ d.
Proof.
  induction d as [|[k' v'] d IH]; simpl; [done|].
  destruct (String.eqb k' k) eqn:E.
  - apply String.eqb_eq in E as ->. intros [= ->]. apply list_elem_of_here.
  - intros H. by apply list_elem_of_further, IH.
Qed.

Lemma Dict_get_is_Some {V} (d : Dict.t V) k :
  k ∈ Dict.keys d → is_Some (Dict.get d k).
Proof.
  unfold Dict.keys. induction d as [|[k' v'] d IH]; simpl.
  - by intros ?%elem_of_nil.
  - destruct (String.eqb k' k) eqn:E; [eauto|].
    intros [->|H]%elem_of_cons; [|by apply IH].
    by rewrite String.eqb_refl in E.
Qed.

(** ** Node discovery *)

(** Induction on the address space: a node, once its children are
    dealt with. *)
Lemma UaNode_children_ind (P : UaNode → Prop) :
  (∀ node,
     (∀ children, get_children node = Some children → Forall P children) →
     P node) →
  ∀ node, P node.
Proof.
  intros step.
  fix IH 1. intros [c b [children|] vt].
  - apply step. simpl. intros ? [= <-].
    induction children as [|child children IHc]; constructor.
    + apply IH.
    + apply IHc.
  - apply step. simpl. discriminate.
Qed.

(** The equation of the traversal. *)
Lemma _get_readable_nodes_eq node :
  _get_readable_nodes node
  = let nodes_dict :=
      match get_node_class node with
      | Some NodeClass_Variable =>
          match get_browse_name node with
          | Some browse => Dict.set browse node []
          | None => []
          end
      | _ => []
      end in
    match get_children node with
    | Some children =>
        fold_left
          (fun acc child => Dict.update acc (_get_readable_nodes child))
          children nodes_dict
    | None => nodes_dict
    end.
Proof. by destruct node. Qed.

Lemma own_entry_sound node kv :
  kv ∈ match get_node_class node with
       | Some NodeClass_Variable =>
           match get_browse_name node with
           | Some browse => Dict.set browse node []
           | None => []
           end
       | _ => []
       end →
  kv = (default "" (get_browse_name node), node)
  ∧ readable_as (fst kv) node.
Proof.
  unfold readable_as.
  destruct (get_node_class node) as [[]|]; try by intros ?%elem_of_nil.
  destruct (get_browse_name node) as [b|]; [|by intros ?%elem_of_nil].
  simpl. by intros ->%list_elem_of_singleton.
Qed.

Lemma own_entry_keys node k :
  k ∈ Dict.keys
        match get_node_class node with
        | Some NodeClass_Variable =>
            match get_browse_name node with
            | Some browse => Dict.set browse node []
            | None => []
            end
        | _ => []
        end
  ↔ readable_as k node.
Proof.
  unfold readable_as, Dict.keys.
  destruct (get_node_class node) as [[]|]; simpl;
    try (rewrite elem_of_nil; split; [done | by intros [[=] _]]).
  destruct (get_browse_name node) as [b|]; simpl.
  - rewrite list_elem_of_singleton. split; [by intros -> | by intros [_ [= ->]]].
  - rewrite elem_of_nil. split; [done | by intros [_ [=]]].
Qed.

Lemma own_entry_NoDup node :
  NoDup (Dict.keys
           match get_node_class node with
           | Some NodeClass_Variable =>
               match get_browse_name node with
               | Some browse => Dict.set browse node []
               | None => []
               end
           | _ => []
           end).
Proof.
  destruct (get_node_class node) as [[]|]; try apply NoDup_nil_2.
  destruct (get_browse_name node); [apply NoDup_singleton | apply NoDup_nil_2].
Qed.

Lemma fold_update_sound children k node :
  Forall (fun child =>
            ∀ k node, (k, node) ∈ _get_readable_nodes child →
                      readable_as k node ∧ node ∈ visited child) children →
  ∀ acc,
    (k, node) ∈ fold_left
      (fun acc child => Dict.update acc (_get_readable_nodes child))
      children acc →
    (k, node) ∈ acc
    ∨ (readable_as k node ∧ node ∈ flat_map visited children).
Proof.
  induction 1 as [|child children Hchild _ IHc]; intros acc.
  { simpl. by left. }
  simpl. intros Hacc. apply IHc in Hacc as [H | [R Hin]].
  - apply Dict_update_entries in H as [H|H]; [by left|].
    right. destruct (Hchild _ _ H) as [R Hin]. split; [done|].
    apply elem_of_app. by left.
  - right. split; [done|]. apply elem_of_app. by right.
Qed.

Lemma discovery_entries root k node :
  (k, node) ∈ _get_readable_nodes root →
  readable_as k node ∧ node ∈ visited root.
Proof.
  revert k node. induction root as [root IH] using UaNode_children_ind.
  intros k node. rewrite _get_readable_nodes_eq. cbv zeta.
  assert (Hown : ∀ kv, kv ∈ match get_node_class root with
                            | Some NodeClass_Variable =>
                                match get_browse_name root with
                                | Some browse => Dict.set browse root []
                                | None => []
                                end
                            | _ => []
                            end →
                 readable_as (fst kv) (snd kv) ∧ snd kv ∈ visited root).
  { intros kv H. destruct (own_entry_sound root kv H) as [-> R].
    split; [exact R|]. destruct root. apply list_elem_of_here. }
  destruct (get_children root) as [children|] eqn:Hch.
  - intros [H | [R Hin]]%(fold_update_sound children k node (IH _ eq_refl)).
    + apply (Hown _ H).
    + split; [done|]. destruct root. simpl in *. rewrite Hch.
      by apply list_elem_of_further.
  - intros H. apply (Hown _ H).
Qed.

(** X1. Whatever the server answers during the traversal, every entry
    of the node map it returns is a node of class [Variable] filed
    under its own browse name, and the node was visited. *)
Theorem discovery_sound root k node :
  Dict.get (_get_readable_nodes root) k = Some node →
  readable_as k node ∧ node ∈ visited root.
Proof.
  intros H. by apply discovery_entries, Dict_get_Some_elem.
Qed.


Lemma fold_update_keys children k :
  Forall (fun child =>
            k ∈ Dict.keys (_get_readable_nodes child)
            ↔ ∃ node, node ∈ visited child ∧ readable_as k node) children →
  ∀ acc,
    k ∈ Dict.keys
          (fold_left
             (fun acc child => Dict.update acc (_get_readable_nodes child))
             children acc)
    ↔ k ∈ Dict.keys acc
      ∨ ∃ node, node ∈ flat_map visited children ∧ readable_as k node.
Proof.
  induction 1 as [|child children Hchild _ IHc]; intros acc; simpl.
  - split; [by left|]. intros [?|(? & ?%elem_of_nil & _)]; done.
  - rewrite IHc, Dict_keys_update, Hchild. split.
    + intros [[?|(n & Hn & R)]|(n & Hn & R)]; [by left|right..];
        exists n; (split; [|done]); apply elem_of_app; auto.
    + intros [?|(n & [Hn|Hn]%elem_of_app & R)]; [by left; left|..]; eauto.
Qed.

Lemma discovery_keys root k :
  k ∈ Dict.keys (_get_readable_nodes root)
  ↔ ∃ node, node ∈ visited root ∧ readable_as k node.
Proof.
  induction root as [root IH] using UaNode_children_ind.
  rewrite _get_readable_nodes_eq. cbv zeta.
  assert (Hvis : ∀ node, node ∈ visited root
                 ↔ node = root
                   ∨ ∃ children, get_children root = Some children
                                 ∧ node ∈ flat_map visited children).
  { intros node. destruct root as [c b [children|] vt]; simpl;
      rewrite elem_of_cons.
    - split; (intros [?|?]; [by left|right]); [eauto|].
      by destruct H as (? & [= <-] & ?).
    - rewrite elem_of_nil. split; (intros [?|?]; [by left|]); [done|].
      by destruct H as (? & [=] & _). }
  destruct (get_children root) as [children|] eqn:Hch.
  - rewrite (fold_update_keys children k (IH _ eq_refl)), own_entry_keys.
    split.
    + intros [R|(n & Hn & R)].
      * exists root. split; [apply Hvis; by left | done].
      * exists n. split; [apply Hvis; right; eauto | done].
    + intros (n & [->|(cs & [= <-] & Hn)]%Hvis & R); [by left | right; eauto].
  - rewrite own_entry_keys. split.
    + intros R. exists root. split; [apply Hvis; by left | done].
    + by intros (n & [->|(cs & [=] & _)]%Hvis & R).
Qed.

(** X2. No variable the traversal read is lost: if it visits a node
    whose class query answered [Variable] and whose name query answered
    [k], the node map has an entry for [k], and that entry is a
    variable named [k] (the node itself, or a later one of the same
    name).  A node whose queries raised, or that lies below a
    [get_children] that raised, is not spoken of: that is where a
    variable nested deeper than the recursion limit ends up. *)
Theorem discovery_complete root k node :
  node ∈ visited root → readable_as k node →
  ∃ found, Dict.get (_get_readable_nodes root) k = Some found
           ∧ readable_as k found.
Proof.
  intros Hin R.
  assert (Hk : k ∈ Dict.keys (_get_readable_nodes root)).
  { apply discovery_keys. eauto. }
  destruct (Dict_get_is_Some _ _ Hk) as [found Hfound].
  exists found. split; [done|].
  by apply Dict_get_Some_elem, discovery_entries in Hfound as [? _].
Qed.

(** A folder whose queries raised, as they do at the recursion limit:
    whatever the server keeps below it, the traversal met nothing
    there and the map is empty. *)
Lemma raising_folder_hides_what_is_below :
  visited (mkUaNode (Some NodeClass_Object) (Some "Root")
             (Some [mkUaNode None None None None]) None)
  = [mkUaNode (Some NodeClass_Object) (Some "Root")
       (Some [mkUaNode None None None None]) None;
     mkUaNode None None None None]
  ∧ _get_readable_nodes
      (mkUaNode (Some NodeClass_Object) (Some "Root")
         (Some [mkUaNode None None None None]) None)
    = [].
Proof. split; reflexivity. Qed.

Lemma fold_update_NoDup children : ∀ acc : Dict.t UaNode,
  NoDup (Dict.keys acc) →
  NoDup (Dict.keys
           (fold_left
              (fun acc child => Dict.update acc (_get_readable_nodes child))
              children acc)).
Proof.
  induction children as [|child children IH]; intros acc Hacc; [exact Hacc|].
  simpl. by apply IH, Dict_update_NoDup.
Qed.

Lemma discovery_NoDup root : NoDup (Dict.keys (_get_readable_nodes root)).
Proof.
  rewrite _get_readable_nodes_eq. cbv zeta.
  destruct (get_children root) as [children|].
  - apply fold_update_NoDup, own_entry_NoDup.
  - apply own_entry_NoDup.
Qed.

(** ** Reading after connecting *)

Lemma store_values_fresh names : ∀ vs data,
  NoDup names →
  (∀ k, k ∈ names → k ∉ Dict.keys (snap_nodes data)) →
  snap_nodes (store_values names vs data) = snap_nodes data ++ zip names vs.
Proof.
  unfold store_values.
  induction names as [|n names IH]; intros vs data Hnd Hfresh.
  - simpl. by rewrite app_nil_r.
  - destruct vs as [|v vs]; simpl; [by rewrite app_nil_r|].
    apply NoDup_cons in Hnd as [Hn Hnd].
    rewrite IH; [|done|].
    + simpl. rewrite Dict_set_fresh.
      * by rewrite <- app_assoc.
      * apply Hfresh, list_elem_of_here.
    + intros k Hk. simpl. intros [->|Hin]%Dict_keys_set; [done|].
      by apply (Hfresh k); [apply list_elem_of_further|].
Qed.

Lemma store_values_identity names vs data :
  snap_name (store_values names vs data) = snap_name data
  ∧ snap_status (store_values names vs data) = snap_status data
  ∧ snap_url (store_values names vs data) = snap_url data.
Proof.
  unfold store_values. revert data.
  induction (zip names vs) as [|nv l IH]; intros data; simpl; [done|].
  destruct (IH (with_node data nv.1 nv.2)) as (-> & -> & ->). done.
Qed.

(** X3. The round trip of a supervisor: right after a successful
    [connect_and_discover], a read that returns values gives a snapshot
    with status ["CONNECTED"] and leaves the device connected; if at
    least one tag was discovered the snapshot has no error and pairs
    the discovered names, in discovery order, with the values returned;
    if none was, the snapshot carries ["No readable nodes."] and no
    read is issued. *)
Theorem connect_then_read now env p vs :
  connect_succeeds env = true →
  let p1 := state_of (connect_and_discover now env p) in
  let r := read_data (Values vs) p1 in
  snap_status (result_of r) = "CONNECTED"
  ∧ state_of r = p1
  ∧ match nodes p1 with
    | [] => snap_error (result_of r) = Some "No readable nodes."
            ∧ snap_nodes (result_of r) = []
    | _ :: _ => snap_error (result_of r) = None
                ∧ snap_nodes (result_of r) = zip (Dict.keys (nodes p1)) vs
    end.
Proof.
  intros Hok p1 r.
  assert (Hst : status p1 = CONNECTED).
  { subst p1. by rewrite connect_and_discover_status, Hok. }
  assert (Hcl : client p1 = Some (mkClient (url p) 40)
                ∧ ∃ root, nodes p1 = _get_readable_nodes root).
  { subst p1. unfold connect_succeeds in Hok.
    destruct env as [[] sn [root|]]; try discriminate. split; [done|].
    by exists root. }
  destruct Hcl as [Hcl [root Hroot]].
  destruct (decide (nodes p1 = [])) as [Hn|Hne].
  - rewrite Hn. subst r. clear Hroot.
    destruct p1 as [u n sn rr cl nd st l]. simpl in *. subst.
    by repeat split.
  - subst r. rewrite (read_data_connected _ p1 _ Hst Hcl Hne).
    cbv zeta. cbn [result_of state_of fst snd].
    destruct (store_values_identity (Dict.keys (nodes p1)) vs
                {| snap_name := name p1; snap_status := "CONNECTED";
                   snap_url := url p1; snap_nodes := [];
                   snap_error := None |}) as (_ & Hstatus & _).
    rewrite Hstatus, store_values_error.
    rewrite store_values_fresh;
      [| rewrite Hroot; apply discovery_NoDup | by intros ? _ ?%elem_of_nil].
    destruct (nodes p1); [done|]. by repeat split.
Qed.

(** X4. A protocol error is reported once.  The read that meets it
    still reports ["CONNECTED"], with the error; every read after it,
    whatever the server would answer, reports ["ERROR"] with no value
    and no error, and leaves the device as it is. *)
Theorem read_after_protocol_error p c e env :
  status p = CONNECTED → client p = Some c → nodes p ≠ [] →
  let r1 := read_data (RaisesUaStatusCodeError e) p in
  let r2 := read_data env (state_of r1) in
  snap_status (result_of r1) = "CONNECTED"
  ∧ snap_error (result_of r1) = Some (String.append "OPC UA read error: " e)
  ∧ snap_status (result_of r2) = "ERROR"
  ∧ snap_nodes (result_of r2) = []
  ∧ snap_error (result_of r2) = None
  ∧ state_of r2 = state_of r1.
Proof.
  intros Hs Hc Hn r1 r2. subst r2 r1.
  rewrite (read_data_connected _ p c Hs Hc Hn). simpl.
  destruct p as [u n sn rr cl nd st l]. simpl in *. subst.
  unfold read_data. dev_unfold. simpl. by repeat split.
Qed.

(** ** What an iteration keeps *)

Lemma read_data_identity env p :
  let r := read_data env p in
  url (state_of r) = url p ∧ name (state_of r) = name p
  ∧ snap_url (result_of r) = url p ∧ snap_name (result_of r) = name p.
Proof.
  destruct (decide (status p = CONNECTED)) as [Hs|Hs];
    [destruct (client p) as [c|] eqn:Hc;
     [destruct (decide (nodes p = [])) as [Hn|Hn]|]|].
  - destruct p as [u n sn rr cl nd st l]. simpl in *. subst. by repeat split.
  - cbv zeta. rewrite (read_data_connected env p c Hs Hc Hn).
    destruct env as [vs|e|stored]; cbn [result_of state_of fst snd];
      try (destruct (store_values_identity (Dict.keys (nodes p)) vs
                       {| snap_name := name p; snap_status := "CONNECTED";
                          snap_url := url p; snap_nodes := [];
                          snap_error := None |}) as (-> & _ & ->));
      try (destruct (store_values_identity (Dict.keys (nodes p)) stored
                       {| snap_name := name p; snap_status := "CONNECTED";
                          snap_url := url p; snap_nodes := [];
                          snap_error := None |}) as (E1 & _ & E2);
           cbn [with_error snap_url snap_name]; rewrite E1, E2);
      by repeat split.
  - destruct p as [u n sn rr cl nd st l]. simpl in *. subst.
    by repeat split.
  - destruct p as [u n sn rr cl nd st l]. simpl in *.
    destruct st; try done; by repeat split.
Qed.

Lemma read_sweep_result_lookup env clients i :
  (result_of <$> read_sweep env clients) !! i
  = (fun p => result_of (read_data (read_env env i) p)) <$> clients !! i.
Proof.
  unfold read_sweep. rewrite list_lookup_fmap, list_lookup_imap.
  by destruct (clients !! i).
Qed.

Lemma connect_sweep_lookup env delay clients i :
  connect_sweep env (reconnect_list delay env clients) clients !! i
  = (fun p =>
       if bool_decide (i ∈ reconnect_list delay env clients)
       then state_of (connect_and_discover (now_connect env i)
                        (connect_env env i) p)
       else p) <$> clients !! i.
Proof.
  case_bool_decide as Hi.
  - by rewrite connect_sweep_lookup_in by (done || apply reconnect_list_NoDup).
  - rewrite connect_sweep_lookup_notin by done. by destruct (clients !! i).
Qed.

Lemma tick_batch_lookup delay env s i :
  all_plc_data (snd (tick delay env s)) !! i
  = (fun p =>
       result_of
         (read_data (read_env env i)
            (if bool_decide (i ∈ attempted (snd (tick delay env s)))
             then state_of (connect_and_discover (now_connect env i)
                              (connect_env env i) p)
             else p))) <$> plc_clients s !! i.
Proof.
  unfold tick. simpl. rewrite read_sweep_result_lookup, connect_sweep_lookup.
  by destruct (plc_clients s !! i).
Qed.

(** One iteration keeps the devices' identities and lists one snapshot
    per device, in the order of [plc_clients]. *)
Lemma tick_identity delay env s :
  let r := tick delay env s in
  url <$> plc_clients (fst r) = url <$> plc_clients s
  ∧ name <$> plc_clients (fst r) = name <$> plc_clients s
  ∧ snap_url <$> all_plc_data (snd r) = url <$> plc_clients s
  ∧ snap_name <$> all_plc_data (snd r) = name <$> plc_clients s.
Proof.
  cbv zeta.
  repeat split; apply list_eq; intros i; rewrite !list_lookup_fmap;
    rewrite ?tick_lookup, ?tick_batch_lookup;
    destruct (plc_clients s !! i) as [p|]; simpl; try done; f_equal;
    match goal with
    | |- context [read_data ?e ?q] =>
        destruct (read_data_identity e q) as (Hu & Hn & Hsu & Hsn)
    end;
    rewrite ?Hu, ?Hn, ?Hsu, ?Hsn;
    case_bool_decide; try done;
    by destruct (connect_and_discover_identity (now_connect env i)
                   (connect_env env i) p) as (? & ? & ?).
Qed.

Lemma loop_batch_urls minutes envs : ∀ s,
  Forall (fun r => snap_url <$> all_plc_data r = url <$> plc_clients s)
    (snd (data_broadcast_loop minutes envs s)).
Proof.
  induction envs as [|env envs IH]; intros s; [constructor|].
  rewrite data_broadcast_loop_cons. cbv zeta. cbn [snd].
  destruct (tick_identity (timedelta_minutes minutes) env s)
    as (Hu & _ & Hsu & _).
  constructor; [done|]. rewrite <- Hu. apply IH.
Qed.

(** X5. However long the loop runs and whatever the devices and the
    clock do, [plc_clients] keeps its devices, in order, with their
    urls and names; and every iteration's batch has exactly one
    snapshot per device, in that order, carrying that device's url and
    name. *)
Theorem loop_keeps_devices minutes envs s :
  let out := data_broadcast_loop minutes envs s in
  url <$> plc_clients (fst out) = url <$> plc_clients s
  ∧ name <$> plc_clients (fst out) = name <$> plc_clients s
  ∧ Forall (fun r =>
              snap_url <$> all_plc_data r = url <$> plc_clients s
              ∧ snap_name <$> all_plc_data r = name <$> plc_clients s)
      (snd out).
Proof.
  revert s. induction envs as [|env envs IH]; intros s.
  - simpl. by repeat split.
  - rewrite data_broadcast_loop_cons. cbv zeta. cbn [fst snd].
    destruct (tick_identity (timedelta_minutes minutes) env s)
      as (Hu & Hn & Hsu & Hsn).
    specialize (IH (fst (tick (timedelta_minutes minutes) env s))).
    cbv zeta in IH. destruct IH as (IHu & IHn & IHr).
    rewrite IHu, IHn, Hu, Hn. repeat split.
    constructor; [done|]. by rewrite Hu, Hn in IHr.
Qed.


Lemma read_data_state env p :
  state_of (read_data env p) = p
  ∨ state_of (read_data env p) = state_of (set_status ERROR p).
Proof.
  destruct p as [u n sn r [c|] [|kv d] [] l]; destruct env;
    first [ by left | by right ].
Qed.

(** X6. The loop never dials a device that is [CONNECTED], however
    long ago its last attempt was; the iteration only reads it, and
    its client handle and node map are the same afterwards. *)
Theorem connected_not_redialled delay env s i p :
  plc_clients s !! i = Some p → status p = CONNECTED →
  (i ∉ attempted (snd (tick delay env s)))
  ∧ ∃ p', plc_clients (fst (tick delay env s)) !! i = Some p'
          ∧ p' = state_of (read_data (read_env env i) p)
          ∧ client p' = client p ∧ nodes p' = nodes p
          ∧ last_reconnect_attempt p' = last_reconnect_attempt p.
Proof.
  intros Hp Hs.
  assert (Hi : i ∉ attempted (snd (tick delay env s))).
  { simpl. rewrite elem_of_reconnect_list. intros (q & Hq & Hn).
    assert (q = p) as -> by congruence.
    unfold needs_reconnect in Hn. by rewrite Hs in Hn. }
  split; [done|]. rewrite tick_lookup, Hp.
  rewrite bool_decide_eq_false_2 by done. eexists. split; [reflexivity|].
  split; [done|].
  by destruct (read_data_state (read_env env i) p) as [-> | ->].
Qed.


(** ** What a subscriber is sent *)

Lemma filter_all {A} (f : A → bool) (l : list A) :
  (∀ x, x ∈ l → f x = true) → List.filter f l = l.
Proof.
  induction l as [|a l IH]; intros H; simpl; [done|].
  rewrite (H a) by apply list_elem_of_here.
  rewrite IH; [done|]. intros x Hx. by apply H, list_elem_of_further.
Qed.

(** X8. Whatever is handed to the event loop for a socket is a
    telemetry update made from that iteration's batch for a registered
    socket of that identity; and when that socket's visibility set is
    not empty, the update holds exactly the snapshots of the batch
    whose url is in the set. *)
Theorem broadcast_respects_visibility delay env s id payload :
  Scheduled id payload ∈ effects (snd (tick delay env s)) →
  ∃ ws,
    ws ∈ registered s ∧ ws_id ws = id
    ∧ payload
      = telemetry_update
          (visible_data (allowed_urls ws)
             (all_plc_data (snd (tick delay env s))))
    ∧ ∀ allowed,
        allowed_urls ws = Some allowed → allowed ≠ ∅ →
        ∀ d, d ∈ visible_data (allowed_urls ws)
                   (all_plc_data (snd (tick delay env s)))
             ↔ d ∈ all_plc_data (snd (tick delay env s))
               ∧ snap_url d ∈ allowed.
Proof.
  simpl. intros (uid & sockets & ws & Hreg & Hws & He)%elem_of_broadcast.
  exists ws. split.
  { unfold registered. rewrite list_elem_of_In, in_flat_map.
    exists (uid, sockets). by rewrite <- !list_elem_of_In. }
  unfold send_one in He.
  assert (Hpay : id = ws_id ws
                 ∧ payload = telemetry_update
                     (visible_data (allowed_urls ws)
                        (result_of <$> read_sweep env
                           (connect_sweep env
                              (reconnect_list delay env (plc_clients s))
                              (plc_clients s))))).
  { destruct (send_env env (ws_id ws));
      apply list_elem_of_singleton in He; by inversion He. }
  destruct Hpay as [-> ->]. split; [done|]. split; [done|].
  intros allowed -> Hne d. by apply visible_data_restricted.
Qed.

(** X9. A superuser is sent everything.  With every device of
    config.json having its url, a socket whose visibility set was
    resolved for a superuser gets, in every iteration of the loop
    started by [on_startup], the whole batch. *)
Theorem superuser_receives_everything cfg root registry minutes envs
    PARKS table user :
  User.is_superuser user = true →
  Forall (fun c => is_Some (cfg_url c)) cfg →
  Forall (fun r =>
            visible_data (Some (ws_allowed_urls cfg PARKS table user))
              (all_plc_data r) = all_plc_data r)
    (snd (data_broadcast_loop minutes envs
            {| plc_clients := on_startup cfg root;
               active_ws_connections := registry |})).
Proof.
  intros Hsu Hcfg.
  eapply Forall_impl; [apply loop_batch_urls|]. simpl. intros r Hurl.
  unfold visible_data, ws_allowed_urls. rewrite Hsu.
  destruct (truthy _); [|done]. apply filter_all. simpl.
  intros d Hd. apply bool_decide_eq_true.
  assert (Hu : snap_url d ∈ snap_url <$> all_plc_data r)
    by (by apply list_elem_of_fmap_2).
  rewrite Hurl in Hu. unfold on_startup in Hu.
  rewrite <- list_fmap_compose in Hu.
  apply list_elem_of_fmap in Hu as (c & -> & Hc). simpl.
  rewrite Forall_forall in Hcfg. destruct (Hcfg c Hc) as [u Hcu].
  apply elem_of_config_urls. exists c. rewrite Hcu. done.
Qed.

(** ** The pull endpoint *)

Lemma read_one_fold read allowed suf : ∀ i pre out,
  length pre = i →
  fold_left (read_one read) (visible_clients_from allowed i suf)
    (pre ++ suf, out)
  = (pre ++ fst (read_visible read allowed i suf),
     out ++ snd (read_visible read allowed i suf)).
Proof.
  induction suf as [|p ps IH]; intros i pre out Hlen.
  - simpl. by rewrite !app_nil_r.
  - simpl. case_bool_decide as Hp; simpl.
    + unfold read_one at 2. simpl.
      assert (Hlook : (pre ++ p :: ps) !! i = Some p).
      { rewrite lookup_app_r by lia. by rewrite Hlen, Nat.sub_diag. }
      rewrite Hlook.
      assert (Hins : ∀ q, <[i:=q]> (pre ++ p :: ps) = (pre ++ [q]) ++ ps).
      { intros q. rewrite insert_app_r_alt by lia.
        rewrite Hlen, Nat.sub_diag. simpl. by rewrite <- app_assoc. }
      rewrite Hins, (IH (S i)) by (rewrite length_app; simpl; lia).
      by rewrite <- !app_assoc.
    + replace (pre ++ p :: ps) with ((pre ++ [p]) ++ ps)
        by (by rewrite <- app_assoc).
      rewrite (IH (S i)) by (rewrite length_app; simpl; lia).
      by rewrite <- !app_assoc.
Qed.

(** [get_initial_data], device by device. *)
Lemma get_initial_data_read_visible plc_config PARKS table read clients user :
  get_initial_data plc_config PARKS table read clients user
  = read_visible read (ws_allowed_urls plc_config PARKS table user) 0 clients.
Proof.
  unfold get_initial_data. destruct clients as [|p ps]; [done|].
  unfold visible_clients.
  rewrite (read_one_fold read _ (p :: ps) 0 [] []) by done.
  cbn [app]. symmetry. apply surjective_pairing.
Qed.

Lemma read_visible_spec read allowed clients : ∀ i,
  let out := read_visible read allowed i clients in
  snap_url <$> snd out
  = List.filter (fun u => bool_decide (u ∈ allowed)) (url <$> clients)
  ∧ url <$> fst out = url <$> clients
  ∧ name <$> fst out = name <$> clients
  ∧ ∀ j p, clients !! j = Some p → url p ∉ allowed → fst out !! j = Some p.
Proof.
  induction clients as [|p ps IH]; intros i; [done|].
  cbv zeta. cbn [read_visible].
  destruct (IH (S i)) as (Hs & Hu & Hn & Hkeep).
  destruct (read_data_identity (read i) p) as (Eu & En & Esu & Esn).
  rewrite !fmap_cons. cbn [List.filter].
  case_bool_decide as Hp; cbn [fst snd];
    rewrite ?fmap_cons, Hs, Hu, Hn, ?Eu, ?En, ?Esu;
    (split; [done|]); (split; [done|]); (split; [done|]);
    intros [|j] q Hq Hnot; simpl in *;
    try (by apply Hkeep); by injection Hq as ->.
Qed.

(** X10. The pull endpoint honours visibility.  The response lists one
    snapshot for every device whose url is in the caller's resolved
    set, in the order of [plc_clients], and nothing else; the devices
    keep their identities, and a device the caller may not see is not
    even read. *)
Theorem pull_respects_visibility plc_config PARKS table read clients user :
  let allowed := ws_allowed_urls plc_config PARKS table user in
  let out := get_initial_data plc_config PARKS table read clients user in
  snap_url <$> snd out
  = List.filter (fun u => bool_decide (u ∈ allowed)) (url <$> clients)
  ∧ url <$> fst out = url <$> clients
  ∧ name <$> fst out = name <$> clients
  ∧ ∀ j p, clients !! j = Some p → url p ∉ allowed → fst out !! j = Some p.
Proof.
  cbv zeta. rewrite get_initial_data_read_visible.
  apply (read_visible_spec read _ clients 0).
Qed.

Lemma filter_fmap {A B} (f : A → B) (g : B → bool) (l : list A) :
  f <$> List.filter (fun a => g (f a)) l = List.filter g (f <$> l).
Proof.
  induction l as [|a l IH]; [done|].
  rewrite fmap_cons. cbn [List.filter].
  destruct (g (f a)); by rewrite ?fmap_cons, IH.
Qed.

(** X11. Push and pull agree on what a restricted user sees: when the
    resolved visibility set is not empty, the update an iteration
    builds for it and the response of [get_initial_data] list the same
    devices in the same order. *)
Theorem pull_push_agree plc_config PARKS table user delay env read s :
  let allowed := ws_allowed_urls plc_config PARKS table user in
  allowed ≠ ∅ →
  snap_url <$> visible_data (Some allowed)
                 (all_plc_data (snd (tick delay env s)))
  = snap_url <$> snd (get_initial_data plc_config PARKS table read
                        (plc_clients s) user).
Proof.
  intros allowed Hne. rewrite get_initial_data_read_visible.
  fold allowed.
  destruct (read_visible_spec read allowed (plc_clients s) 0) as [-> _].
  destruct (tick_identity delay env s) as (_ & _ & <- & _).
  unfold visible_data, truthy. rewrite bool_decide_eq_false_2 by done.
  cbn [negb]. change (default ∅ (Some allowed)) with allowed.
  by rewrite <- (filter_fmap snap_url).
Qed.

(** ** The subscriber registry *)

Lemma Dict_get_None_keys {V} (d : Dict.t V) k :
  Dict.get d k = None → k ∉ Dict.keys d.
Proof.
  intros H Hin. apply Dict_get_is_Some in Hin as [v Hv]. congruence.
Qed.

Lemma dict_pop_absent {V} (d : Dict.t V) k :
  k ∉ Dict.keys d → dict_pop k d = d.
Proof.
  unfold dict_pop, Dict.keys. induction d as [|[k' v] d IH]; simpl; [done|].
  rewrite not_elem_of_cons. intros [Hne Hd].
  assert (String.eqb k' k = false) as -> by (apply String.eqb_neq; congruence).
  simpl. by rewrite IH.
Qed.

Lemma dict_pop_app {V} (d d' : Dict.t V) k :
  dict_pop k (d ++ d') = dict_pop k d ++ dict_pop k d'.
Proof. apply List.filter_app. Qed.

Lemma Dict_get_pop_eq {V} (d : Dict.t V) k : Dict.get (dict_pop k d) k = None.
Proof.
  unfold dict_pop. induction d as [|[k' v] d IH]; simpl; [done|].
  destruct (String.eqb k' k) eqn:E; simpl; [done|]. by rewrite E.
Qed.

Lemma Dict_get_pop_ne {V} (d : Dict.t V) k k' :
  k ≠ k' → Dict.get (dict_pop k d) k' = Dict.get d k'.
Proof.
  intros Hne. unfold dict_pop. induction d as [|[k0 v] d IH]; simpl; [done|].
  destruct (String.eqb k0 k) eqn:E; simpl.
  - apply String.eqb_eq in E as ->.
    by apply String.eqb_neq in Hne as ->.
  - by rewrite IH.
Qed.

Lemma Dict_set_set {V} (d : Dict.t V) k v v' :
  Dict.set k v' (Dict.set k v d) = Dict.set k v' d.
Proof.
  induction d as [|[k0 v0] d IH]; simpl.
  - by rewrite String.eqb_refl.
  - destruct (String.eqb k0 k) eqn:E; simpl; rewrite E; [done|].
    by rewrite IH.
Qed.

Lemma Dict_set_get_id {V} (d : Dict.t V) k v :
  Dict.get d k = Some v → Dict.set k v d = d.
Proof.
  induction d as [|[k0 v0] d IH]; simpl; [done|].
  destruct (String.eqb k0 k) eqn:E.
  - by intros [= ->].
  - intros H. by rewrite IH.
Qed.

Lemma same_socket_refl ws : same_socket ws ws = true.
Proof. apply Nat.eqb_refl. Qed.

Lemma set_discard_absent ws conns :
  existsb (same_socket ws) conns = false → set_discard ws conns = conns.
Proof.
  unfold set_discard. induction conns as [|w conns IH]; simpl; [done|].
  intros [-> H]%orb_false_iff. simpl. by rewrite IH.
Qed.

Lemma set_discard_gone ws conns :
  existsb (same_socket ws) (set_discard ws conns) = false.
Proof.
  unfold set_discard. induction conns as [|w conns IH]; simpl; [done|].
  destruct (same_socket ws w) eqn:E; simpl; [done|]. by rewrite E.
Qed.

(** X12. The [finally] of [ws_endpoint] takes the socket out: after
    it, the socket is in no set filed under its user, that user has no
    empty set left behind unless one was there before, and the sockets
    of every other user are as they were. *)
Theorem unregister_removes user_key ws registry :
  let after := unregister_socket user_key ws registry in
  (∀ conns, Dict.get after user_key = Some conns →
            existsb (same_socket ws) conns = false
            ∧ (conns = [] → Dict.get registry user_key = Some []))
  ∧ (∀ k, k ≠ user_key → Dict.get after k = Dict.get registry k).
Proof.
  unfold unregister_socket.
  destruct (Dict.get registry user_key) as [[|c cs]|] eqn:Hget; cbv zeta.
  - split; [|done]. intros conns. rewrite Hget. by intros [= <-].
  - destruct (set_discard ws (c :: cs)) as [|w ws'] eqn:Hd.
    + split.
      * intros conns. by rewrite Dict_get_pop_eq.
      * intros k Hk. by apply Dict_get_pop_ne.
    + split.
      * intros conns. rewrite Dict_get_set_eq. intros [= <-].
        rewrite <- Hd. split; [apply set_discard_gone | by rewrite Hd].
      * intros k Hk. by apply Dict_get_set_ne.
  - split; [|done]. intros conns. by rewrite Hget.
Qed.

(** X13. Opening and closing a connection leaves the registry as it
    was: for a socket that is not already filed under the user, whose
    entry, if there is one, is not an empty set, unregistering after
    registering gives back the very same registry; in between, the
    socket is filed under the user. *)
Theorem register_unregister user_key ws registry :
  Dict.get registry user_key ≠ Some [] →
  (∀ conns, Dict.get registry user_key = Some conns →
            existsb (same_socket ws) conns = false) →
  (∃ conns, Dict.get (register_socket user_key ws registry) user_key
            = Some conns
            ∧ existsb (same_socket ws) conns = true)
  ∧ unregister_socket user_key ws (register_socket user_key ws registry)
    = registry.
Proof.
  intros Hne Hfresh. unfold register_socket.
  destruct (Dict.get registry user_key) as [conns|] eqn:Hget.
  - specialize (Hfresh conns eq_refl).
    unfold set_add. rewrite Hfresh. split.
    + eexists. split; [apply Dict_get_set_eq|].
      rewrite existsb_app. simpl. rewrite same_socket_refl.
      by rewrite orb_true_r.
    + unfold unregister_socket. rewrite Dict_get_set_eq.
      assert (Hd : set_discard ws (conns ++ [ws]) = conns).
      { unfold set_discard. rewrite List.filter_app. simpl.
        rewrite same_socket_refl. simpl. rewrite app_nil_r.
        by apply set_discard_absent. }
      destruct conns as [|c cs]; [done|].
      change ((c :: cs) ++ [ws]) with (c :: (cs ++ [ws])) in *.
      cbv beta iota. rewrite Hd, Dict_set_set. by apply Dict_set_get_id.
  - split.
    + eexists. split; [apply Dict_get_set_eq|].
      simpl. by rewrite same_socket_refl.
    + unfold unregister_socket. rewrite Dict_get_set_eq.
      unfold set_discard. simpl. rewrite same_socket_refl. simpl.
      rewrite Dict_set_fresh by (by apply Dict_get_None_keys).
      rewrite dict_pop_app, dict_pop_absent by (by apply Dict_get_None_keys).
      unfold dict_pop. simpl. rewrite String.eqb_refl. simpl.
      apply app_nil_r.
Qed.

(** ** The handshake *)

Lemma lower_not_space c :
  lower c ≠ " "%char → Ascii.eqb c " "%char = false.
Proof.
  intros H. apply Ascii.eqb_neq. intros ->. by apply H.
Qed.

Lemma lower_space c : lower c = " "%char → c = " "%char.
Proof.
  destruct c as [[] [] [] [] [] [] [] []]; vm_compute; congruence.
Qed.

(** [s.startswith(p)] *)
Lemma prefix_append p : ∀ s,
  String.prefix p s = true → ∃ t, s = String.append p t.
Proof.
  induction p as [|a p IH]; intros s.
  - intros _. by exists s.
  - destruct s as [|b s]; simpl; [discriminate|].
    destruct (ascii_dec a b) as [<-|]; [|discriminate].
    intros [t ->]%IH. by exists t.
Qed.

Lemma after_first_here sep pre rest :
  Forall (fun c => Ascii.eqb c sep = false) pre →
  after_first sep (pre ++ sep :: rest) = Some rest.
Proof.
  induction 1 as [|c pre Hc _ IH]; simpl.
  - by rewrite Ascii.eqb_refl.
  - by rewrite Hc.
Qed.

(** An [Authorization] header of the bearer scheme: the word in any
    letter case, a space, and the credentials. *)
Lemma bearer_header auth :
  String.prefix "bearer "
    (string_of_list_ascii (List.map lower (list_ascii_of_string auth)))
  = true →
  ∃ scheme t,
    List.map lower scheme = list_ascii_of_string "bearer"
    ∧ auth = string_of_list_ascii (scheme ++ " "%char :: t).
Proof.
  intros [rest H]%prefix_append.
  apply (f_equal list_ascii_of_string) in H.
  rewrite list_ascii_of_string_of_list_ascii in H.
  rewrite <- (string_of_list_ascii_of_string auth).
  destruct (list_ascii_of_string auth)
    as [|c1 [|c2 [|c3 [|c4 [|c5 [|c6 [|c7 t]]]]]]]; try discriminate H.
  cbv [String.append] in H. cbn [list_ascii_of_string List.map] in H.
  injection H as H1 H2 H3 H4 H5 H6 H7 _.
  apply lower_space in H7 as ->.
  exists [c1; c2; c3; c4; c5; c6], t. split; [|done].
  cbn [List.map list_ascii_of_string]. congruence.
Qed.

Lemma bearer_scheme_no_space scheme :
  List.map lower scheme = list_ascii_of_string "bearer" →
  Forall (fun c => Ascii.eqb c " "%char = false) scheme.
Proof.
  intros H.
  destruct scheme as [|c1 [|c2 [|c3 [|c4 [|c5 [|c6 [|c7 scheme]]]]]]];
    try discriminate.
  injection H as H1 H2 H3 H4 H5 H6.
  repeat constructor; apply lower_not_space; congruence.
Qed.

(** The handshake fails only where [accept] raises. *)
Lemma extract_token_accept req :
  ∃ token,
    extract_token req
    = if accept_raises req then AcceptError else Accepted token.
Proof.
  unfold extract_token, accept.
  destruct (String.prefix "bearer," (or_empty (hdr_protocol req))) eqn:Hp.
  - apply prefix_append in Hp as [t ->].
    cbv [String.append]. cbn [list_ascii_of_string after_first].
    change (Ascii.eqb "b" ",") with false. change (Ascii.eqb "e" ",") with false.
    change (Ascii.eqb "a" ",") with false. change (Ascii.eqb "r" ",") with false.
    change (Ascii.eqb "," ",") with true. cbv iota. eauto.
  - destruct (query_token req) as [t|]; [eauto|].
    destruct (hdr_authorization req) as [auth|]; [|eauto].
    destruct (is_empty auth); simpl; [eauto|].
    destruct (String.prefix "bearer " _) eqn:Hb; [|eauto].
    apply bearer_header in Hb as (scheme & t & Hs & ->).
    rewrite list_ascii_of_string_of_list_ascii.
    rewrite after_first_here by (by apply bearer_scheme_no_space). eauto.
Qed.

(** X14. Where [ws_endpoint] finds the bearer token.  The handshake
    fails where [accept] raises, and only there.  Otherwise a
    subprotocol ["bearer,<t>"] gives [<t>] stripped of surrounding
    white space, whatever else the request carries; failing that, the
    query parameter gives its value; failing that, an [Authorization]
    header made of the word bearer in any letter case, a space and
    [<t>] gives [<t>] as it is; and where the header is missing or is
    anything else, credentials of another scheme included, there is no
    token. *)
Theorem bearer_token_extraction req :
  (accept_raises req = true → extract_token req = AcceptError)
  ∧ (accept_raises req = false →
     (∀ t, hdr_protocol req = Some (String.append "bearer," t) →
           extract_token req
           = Accepted (Some (string_of_list_ascii
                               (strip is_space (list_ascii_of_string t)))))
     ∧ (String.prefix "bearer," (or_empty (hdr_protocol req)) = false →
        (∀ t, query_token req = Some t →
              extract_token req = Accepted (Some t))
        ∧ (query_token req = None →
           (∀ scheme t,
              List.map lower scheme = list_ascii_of_string "bearer" →
              hdr_authorization req
              = Some (string_of_list_ascii (scheme ++ " "%char :: t)) →
              extract_token req = Accepted (Some (string_of_list_ascii t)))
           ∧ ((∀ scheme t,
                 List.map lower scheme = list_ascii_of_string "bearer" →
                 hdr_authorization req
                 ≠ Some (string_of_list_ascii (scheme ++ " "%char :: t))) →
              extract_token req = Accepted None)))).
Proof.
  split.
  { intros Hacc. destruct (extract_token_accept req) as [token H].
    by rewrite Hacc in H. }
  intros Hacc. unfold extract_token, accept. rewrite Hacc. split.
  - intros t ->. unfold or_empty. cbn [default from_option].
    cbv [String.append]. simpl. by destruct t.
  - intros ->. split; [by intros t ->|]. intros ->. split.
    + intros scheme t Hscheme ->.
      rewrite list_ascii_of_string_of_list_ascii.
      rewrite after_first_here by (by apply bearer_scheme_no_space).
      rewrite List.map_app, Hscheme. cbn [List.map].
      change (lower " "%char) with " "%char.
      assert (Hp : ∀ rest, String.prefix "bearer "
                             (String.append "bearer " rest) = true)
        by (intros []; reflexivity).
      cbv [String.append] in Hp. cbn [list_ascii_of_string app].
      cbn [string_of_list_ascii]. rewrite Hp.
      destruct scheme; [discriminate|]. by rewrite andb_true_r.
    + intros Hnot. destruct (hdr_authorization req) as [auth|]; [|done].
      destruct (String.prefix "bearer " _) eqn:Hb;
        [|by rewrite andb_false_r].
      apply bearer_header in Hb as (scheme & t & Hs & ->).
      by destruct (Hnot scheme t Hs).
Qed.

(** Every way through [user_from_token] ends in [None]. *)
Lemma user_from_token_None read_token token :
  user_from_token read_token token = None.
Proof. unfold user_from_token. by destruct (read_token token). Qed.

(** So [ws_endpoint] closes whatever it accepted. *)
Lemma ws_endpoint_closes plc_config PARKS table read_token uuid_str fresh req
    registry :
  ws_endpoint plc_config PARKS table read_token uuid_str fresh req registry
  = if accept_raises req then WsReturned
    else WsClosed WS_1008_POLICY_VIOLATION.
Proof.
  unfold ws_endpoint, ws_endpoint_open.
  destruct (extract_token_accept req) as [token ->].
  destruct (accept_raises req); [done|].
  destruct token as [token|]; [|done].
  rewrite user_from_token_None. by destruct (is_empty token).
Qed.


(** The token [abc], which the strategy decodes, is turned away like
    any other. *)
Lemma known_token_turned_away :
  extract_token header_request = Accepted (Some "abc")
  ∧ knows_abc "abc"
    = ReadToken_raises "'NoneType' object has no attribute 'parse_id'"
  ∧ ws_endpoint two_parks (build_PARKS slugify two_parks) granted_once
      knows_abc (fun _ => "7") 1 header_request []
    = WsClosed WS_1008_POLICY_VIOLATION.
Proof. repeat split. Qed.

(** * The application as a whole *)

(** A request leaves an empty registry empty, and an iteration that
    finds it empty hands nothing to the event loop. *)
Lemma serve_nobody PLC_CONFIG minutes uuid_str s r :
  active_ws_connections s = [] →
  active_ws_connections (fst (serve PLC_CONFIG minutes uuid_str s r)) = []
  ∧ Forall (fun report => effects report = [])
      (snd (serve PLC_CONFIG minutes uuid_str s r)).
Proof.
  intros Hs. destruct r as [env|table read_token fresh req|user_key ws|
                            table user read]; simpl.
  - split; [done|]. constructor; [|constructor]. simpl. by rewrite Hs.
  - rewrite ws_endpoint_closes. by destruct (accept_raises req).
  - by rewrite Hs.
  - done.
Qed.


(** The morning of [morning]: the token is known, and still both
    iterations find nobody to send to. *)
Lemma morning_nobody_listens :
  let out :=
    serve_all two_parks 5 (fun _ => "7") morning
      (startup two_parks "ns=2;s=Root") in
  active_ws_connections (fst out) = []
  ∧ effects <$> snd out = [[]; []]
  ∧ (fun report => snap_url <$> all_plc_data report) <$> snd out
    = [["opc.tcp://a:4840"; "opc.tcp://b:4840"];
       ["opc.tcp://a:4840"; "opc.tcp://b:4840"]].
Proof. vm_compute. repeat split. Qed.

(** ** [slugify] *)

Ltac ascii_cases c :=
  destruct c as [[] [] [] [] [] [] [] []]; vm_compute; try done; auto.

Lemma slug_ok_not_space c : slug_ok c = true → is_space c = false.
Proof. ascii_cases c. Qed.

Lemma slug_ok_lower c : slug_ok c = true → lower c = c.
Proof. ascii_cases c. Qed.

Lemma slug_ok_cases c :
  slug_ok c = true → is_slug_char c = true ∨ c = "_"%char.
Proof. ascii_cases c. Qed.

Lemma slug_char_not_underscore c :
  is_slug_char c = true → c ≠ "_"%char.
Proof. intros H ->. discriminate. Qed.

Lemma slug_char_ok c : is_slug_char c = true → slug_ok c = true.
Proof. unfold slug_ok. by intros ->. Qed.

(** [lstrip] and [strip] cut a prefix and a suffix off. *)
Lemma lstrip_suffix f s : ∃ pre, s = pre ++ lstrip f s.
Proof.
  induction s as [|c s [pre IH]]; [by exists []|]. simpl.
  destruct (f c); [|by exists []].
  exists (c :: pre). simpl. by f_equal.
Qed.

Lemma lstrip_head f s c rest : lstrip f s = c :: rest → f c = false.
Proof.
  induction s as [|a s IH]; simpl; [done|].
  destruct (f a) eqn:E; [done|]. by intros [= <- _].
Qed.

Lemma lstrip_id f s :
  (∀ c, hd_error s = Some c → f c = false) → lstrip f s = s.
Proof.
  destruct s as [|c s]; [done|]. simpl. intros H. by rewrite (H c).
Qed.

Lemma lstrip_snoc f l c :
  f c = false → lstrip f (l ++ [c]) = lstrip f l ++ [c].
Proof.
  intros Hc. induction l as [|a l IH]; simpl; [by rewrite Hc|].
  by destruct (f a).
Qed.

Lemma strip_infix f s : ∃ pre post, s = pre ++ strip f s ++ post.
Proof.
  unfold strip. destruct (lstrip_suffix f s) as [pre Hpre].
  destruct (lstrip_suffix f (rev (lstrip f s))) as [post Hpost].
  exists pre, (rev post). rewrite <- rev_app_distr, <- Hpost.
  by rewrite rev_involutive.
Qed.

Lemma strip_last f s c :
  hd_error (rev (strip f s)) = Some c → f c = false.
Proof.
  unfold strip. rewrite rev_involutive.
  destruct (lstrip f (rev (lstrip f s))) as [|a rest] eqn:E; [done|].
  intros [= <-]. by eapply lstrip_head.
Qed.

Lemma strip_head f s c : hd_error (strip f s) = Some c → f c = false.
Proof.
  unfold strip.
  destruct (lstrip f s) as [|a m] eqn:E; [done|].
  pose proof (lstrip_head f s a m E) as Ha.
  change (rev (a :: m)) with (rev m ++ [a]).
  rewrite lstrip_snoc, rev_app_distr by done.
  simpl. by intros [= <-].
Qed.

Lemma strip_id f s :
  (∀ c, hd_error s = Some c → f c = false) →
  (∀ c, hd_error (rev s) = Some c → f c = false) →
  strip f s = s.
Proof.
  intros Hh Hl. unfold strip.
  rewrite (lstrip_id f s Hh), (lstrip_id f (rev s) Hl).
  apply rev_involutive.
Qed.

(** What [slug_sub] produces. *)
Lemma slug_sub_ok s : ∀ b, Forall (fun c => slug_ok c = true) (slug_sub b s).
Proof.
  induction s as [|c s IH]; intros b; simpl; [constructor|].
  destruct (is_slug_char c) eqn:E.
  - constructor; [by apply slug_char_ok | apply IH].
  - destruct b; [apply IH|]. constructor; [done | apply IH].
Qed.

Lemma slug_sub_no_double s : ∀ b,
  no_double_underscore (slug_sub b s)
  ∧ (b = true → hd_error (slug_sub b s) ≠ Some "_"%char).
Proof.
  induction s as [|c s IH]; intros b; simpl; [done|].
  destruct (is_slug_char c) eqn:E.
  - split.
    + destruct (IH false) as [Hnd _].
      destruct (slug_sub false s) as [|d rest] eqn:Hs; [done|].
      split; [|done]. intros [-> _]. discriminate.
    + intros _ [= ->]. discriminate.
  - destruct b; [apply IH|]. split; [|done].
    destruct (IH true) as [Hnd Hhd].
    destruct (slug_sub true s) as [|d rest] eqn:Hs; [done|].
    split; [|done]. intros [_ ->]. by apply Hhd.
Qed.

Lemma no_double_tail c s :
  no_double_underscore (c :: s) → no_double_underscore s.
Proof. destruct s; [done|]. by intros [_ ?]. Qed.

Lemma no_double_infix pre m post :
  no_double_underscore (pre ++ m ++ post) → no_double_underscore m.
Proof.
  induction pre as [|a pre IH]; simpl.
  - revert post. induction m as [|c m IHm]; intros post; [done|].
    destruct m as [|d m]; [done|]. simpl. intros [Hcd Hrest].
    split; [done|]. by apply (IHm post).
  - intros H. apply IH. revert H. apply no_double_tail.
Qed.

Lemma Forall_infix {A} (P : A → Prop) pre m post :
  Forall P (pre ++ m ++ post) → Forall P m.
Proof. rewrite !Forall_app. tauto. Qed.

(** A list of the shape of a slug goes through the four steps of
    [slugify] unchanged. *)
Lemma slug_sub_id s : ∀ b,
  Forall (fun c => slug_ok c = true) s → no_double_underscore s →
  (b = true → hd_error s ≠ Some "_"%char) →
  slug_sub b s = s.
Proof.
  induction s as [|c s IH]; intros b Hok Hnd Hhd; [done|]. simpl.
  apply Forall_cons in Hok as [Hc Hok].
  destruct (is_slug_char c) eqn:E.
  - f_equal. apply IH; [done | by eapply no_double_tail | done].
  - destruct (slug_ok_cases c Hc) as [?| ->]; [congruence|].
    destruct b; [by destruct Hhd|]. f_equal.
    apply IH; [done | by eapply no_double_tail |].
    intros _. destruct s as [|d s]; [done|].
    simpl in *. intros [= ->]. by destruct Hnd as [[] _].
Qed.

Lemma slug_shape_fixed s :
  slug_shape s → slugify (string_of_list_ascii s) = string_of_list_ascii s.
Proof.
  intros (Hne & Hok & Hhd & Hlast & Hnd). unfold slugify.
  rewrite list_ascii_of_string_of_list_ascii.
  assert (Hrev : Forall (fun c => slug_ok c = true) (rev s))
    by (by apply Forall_rev).
  rewrite (strip_id is_space s).
  - assert (Hlow : List.map lower s = s).
    { clear -Hok. induction Hok as [|c s Hc _ IH]; [done|].
      simpl. by rewrite IH, slug_ok_lower. }
    rewrite Hlow, (slug_sub_id s false) by done.
    rewrite (strip_id (Ascii.eqb "_"%char) s).
    + by destruct s.
    + intros c Hc. apply Ascii.eqb_neq. intros <-. by apply Hhd.
    + intros c Hc. apply Ascii.eqb_neq. intros <-. by apply Hlast.
  - intros c Hc. apply slug_ok_not_space.
    destruct s as [|d s]; [done|]. injection Hc as <-.
    by apply Forall_cons in Hok as [? _].
  - intros c Hc. apply slug_ok_not_space.
    destruct (rev s) as [|d rs]; [done|]. injection Hc as <-.
    by apply Forall_cons in Hrev as [? _].
Qed.

Lemma slugify_has_shape value :
  slug_shape (list_ascii_of_string (slugify value)).
Proof.
  unfold slugify.
  set (sub := slug_sub false
                (List.map lower (strip is_space (list_ascii_of_string value)))).
  destruct (strip (Ascii.eqb "_"%char) sub) as [|c rest] eqn:Hs.
  - unfold slug_shape. simpl.
    split; [done|]. split; [by repeat constructor|].
    split; [done|]. split; [done|].
    repeat split; intros [? ?]; discriminate.
  - rewrite list_ascii_of_string_of_list_ascii. rewrite <- Hs.
    destruct (strip_infix (Ascii.eqb "_"%char) sub) as (pre & post & Hsub).
    pose proof (slug_sub_ok
                  (List.map lower
                     (strip is_space (list_ascii_of_string value))) false)
      as Hok.
    destruct (slug_sub_no_double
                (List.map lower
                   (strip is_space (list_ascii_of_string value))) false)
      as [Hnd _].
    fold sub in Hok, Hnd. rewrite Hsub in Hok, Hnd.
    split; [by rewrite Hs|]. split; [by eapply Forall_infix|].
    split.
    { intros Hc. apply strip_head in Hc. by rewrite Ascii.eqb_refl in Hc. }
    split; [|by eapply no_double_infix].
    intros Hc. apply strip_last in Hc. by rewrite Ascii.eqb_refl in Hc.
Qed.

(** X16. A slug is never empty, is made of lower-case letters, digits
    and underscores only, neither starts nor ends with an underscore
    and has no two underscores in a row, whatever [slugify] is given. *)
Theorem slugify_shape value :
  let s := list_ascii_of_string (slugify value) in
  s ≠ []
  ∧ Forall (fun c => slug_ok c = true) s
  ∧ hd_error s ≠ Some "_"%char
  ∧ hd_error (rev s) ≠ Some "_"%char
  ∧ no_double_underscore s.
Proof. cbv zeta. apply (slugify_has_shape value). Qed.

(** X17. [slugify] is idempotent: a slug is its own slug. *)
Theorem slugify_idempotent value : slugify (slugify value) = slugify value.
Proof.
  pose proof (slug_shape_fixed _ (slugify_has_shape value)) as H.
  by rewrite string_of_list_ascii_of_string in H.
Qed.

(** ** How [PARKS] is built *)

Lemma add_park_lookup slug PARKS item pid :
  add_park slug PARKS item !! pid
  = if negb (is_empty (or_empty (cfg_url item)))
       && String.eqb (park_id_of slug item) pid
    then Some (park_info_of slug item)
    else PARKS !! pid.
Proof.
  unfold add_park. fold (park_id_of slug item).
  destruct (is_empty (or_empty (cfg_url item))); simpl; [done|].
  rewrite lookup_insert. destruct (String.eqb_spec (park_id_of slug item) pid).
  - by rewrite decide_True.
  - by rewrite decide_False.
Qed.

(** X18. [PARKS] maps a park id to the last entry of config.json that
    is filed under that id and has a url; entries without a url are
    passed over, and an id no such entry is filed under is absent. *)
Theorem PARKS_last_entry_wins slug plc_config pid :
  build_PARKS slug plc_config !! pid
  = park_info_of slug <$>
      List.find
        (fun item => negb (is_empty (or_empty (cfg_url item)))
                     && String.eqb (park_id_of slug item) pid)
        (rev plc_config).
Proof.
  unfold build_PARKS.
  induction plc_config as [|item cfg IH] using rev_ind.
  - simpl. apply lookup_empty.
  - rewrite fold_left_app, rev_app_distr. simpl.
    rewrite add_park_lookup.
    by destruct (negb _ && _).
Qed.

(** X19. With [slugify] as the fallback, no park of [PARKS] has an
    empty id, an empty name or an empty url. *)
Theorem PARKS_entries_filled plc_config pid info :
  build_PARKS slugify plc_config !! pid = Some info →
  pid ≠ "" ∧ park_name info ≠ "" ∧ park_url info ≠ "".
Proof.
  assert (Hslug : ∀ v, slugify v ≠ "").
  { intros v Hv. destruct (slugify_has_shape v) as [Hne _].
    by rewrite Hv in Hne. }
  assert (Hid : ∀ item, park_id_of slugify item ≠ "").
  { intros item. unfold park_id_of.
    destruct (is_empty (or_empty (cfg_id item))) eqn:E; [apply Hslug|].
    intros Hx. by rewrite Hx in E. }
  unfold build_PARKS. revert pid info.
  induction plc_config as [|item cfg IH] using rev_ind; intros pid info.
  - simpl. by rewrite lookup_empty.
  - rewrite fold_left_app. simpl. rewrite add_park_lookup.
    destruct (is_empty (or_empty (cfg_url item))) eqn:Hurl; simpl;
      [apply IH|].
    destruct (String.eqb_spec (park_id_of slugify item) pid) as [<-|];
      [|apply IH].
    intros [= <-]. split; [apply Hid|]. split.
    + unfold park_info_of. simpl.
      destruct (is_empty (or_empty (cfg_name item))) eqn:Hname;
        [apply Hid|].
      intros Hx. by rewrite Hx in Hname.
    + simpl. intros Hx. by rewrite Hx in Hurl.
Qed.

(** Whatever the fallback for ids, a park of [PARKS] has a url. *)
Lemma PARKS_has_url slug plc_config pid info :
  build_PARKS slug plc_config !! pid = Some info → park_url info ≠ "".
Proof.
  unfold build_PARKS. revert pid info.
  induction plc_config as [|item cfg IH] using rev_ind; intros pid info.
  - simpl. by rewrite lookup_empty.
  - rewrite fold_left_app. simpl. rewrite add_park_lookup.
    destruct (is_empty (or_empty (cfg_url item))) eqn:Hurl; simpl;
      [apply IH|].
    destruct (String.eqb (park_id_of slug item) pid); [|apply IH].
    intros [= <-]. simpl. intros Hx. by rewrite Hx in Hurl.
Qed.

(** ** What a user may see *)

Lemma elem_of_map_park_ids_to_urls PARKS park_ids u :
  u ∈ map_park_ids_to_urls PARKS park_ids
  ↔ u ≠ ""
    ∧ ∃ pid info, pid ∈ park_ids ∧ PARKS !! pid = Some info
                  ∧ park_url info = u.
Proof.
  unfold map_park_ids_to_urls.
  assert (Hgen : ∀ acc : gset string,
    u ∈ fold_left
          (fun urls pid =>
             match PARKS !! pid with
             | Some info =>
                 if is_empty (park_url info) then urls
                 else urls ∪ {[park_url info]}
             | None => urls
             end) park_ids acc
    ↔ u ∈ acc
      ∨ (u ≠ "" ∧ ∃ pid info, pid ∈ park_ids ∧ PARKS !! pid = Some info
                              ∧ park_url info = u)).
  { induction park_ids as [|pid pids IH]; intros acc; simpl.
    - split; [by left|]. intros [?|(_ & ? & ? & ?%elem_of_nil & _)]; done.
    - rewrite IH. split.
      + intros [Hacc|(Hne & p & info & Hp & Hl & Hu)].
        * destruct (PARKS !! pid) as [info|] eqn:Hpid; [|by left].
          destruct (is_empty (park_url info)) eqn:He; [by left|].
          apply elem_of_union in Hacc as [?|Hu%elem_of_singleton];
            [by left|].
          right. split.
          { intros Hx. rewrite Hu in Hx. by rewrite Hx in He. }
          exists pid, info. split; [apply list_elem_of_here | done].
        * right. split; [done|]. exists p, info.
          split; [by apply list_elem_of_further | done].
      + intros [Hacc|(Hne & p & info & Hp & Hl & Hu)].
        * left. destruct (PARKS !! pid) as [info|]; [|done].
          destruct (is_empty (park_url info)); [done|].
          apply elem_of_union. by left.
        * apply elem_of_cons in Hp as [->|Hp].
          -- left. rewrite Hl.
             destruct (is_empty (park_url info)) eqn:He.
             ++ apply String.eqb_eq in He. congruence.
             ++ apply elem_of_union. right. by apply elem_of_singleton.
          -- right. split; [done|]. by exists p, info. }
  rewrite Hgen. split; [intros [?%not_elem_of_empty|?]; done | by right].
Qed.

Lemma elem_of_select_park_ids table uid pid :
  pid ∈ select_park_ids table uid
  ↔ ∃ row, row ∈ table ∧ UserParkAccess.user_id row = uid
           ∧ UserParkAccess.park_id row = pid.
Proof.
  unfold select_park_ids. rewrite list_elem_of_fmap. split.
  - intros (row & -> & Hrow). exists row.
    apply list_elem_of_In, filter_In in Hrow as [Hin Hu].
    apply N.eqb_eq in Hu. by rewrite list_elem_of_In.
  - intros (row & Hin & Hu & Hp). exists row. split; [done|].
    apply list_elem_of_In, filter_In. split; [by apply list_elem_of_In|].
    by apply N.eqb_eq.
Qed.

(** X20. A user is allowed exactly the endpoints of the parks granted
    to them in the access table that [PARKS] still lists: [u] is in
    [user_allowed_urls] if and only if it is the url, not empty, of a
    park of [PARKS] for which the table has a row of that user. *)
Theorem user_allowed_urls_exact PARKS table user u :
  u ∈ user_allowed_urls PARKS table user
  ↔ u ≠ ""
    ∧ ∃ row info,
        row ∈ table ∧ UserParkAccess.user_id row = User.id user
        ∧ PARKS !! UserParkAccess.park_id row = Some info
        ∧ park_url info = u.
Proof.
  unfold user_allowed_urls, user_allowed_park_ids.
  rewrite elem_of_map_park_ids_to_urls. split.
  - intros (Hne & pid & info & Hpid & Hl & Hu). split; [done|].
    apply elem_of_elements, elem_of_list_to_set in Hpid.
    apply list_elem_of_In, filter_In in Hpid as [Hsel _].
    apply list_elem_of_In, elem_of_select_park_ids in Hsel
      as (row & Hin & Hrow & <-).
    by exists row, info.
  - intros (Hne & row & info & Hin & Hrow & Hl & Hu). split; [done|].
    exists (UserParkAccess.park_id row), info. split; [|done].
    apply elem_of_elements, elem_of_list_to_set, list_elem_of_In, filter_In.
    split.
    + apply list_elem_of_In, elem_of_select_park_ids. by exists row.
    + unfold is_valid_park. apply bool_decide_eq_true. by rewrite Hl.
Qed.

(** X21. The two resolutions agree: for a user who is not a superuser,
    the set [ws_endpoint] and [get_initial_data] compute inline is the
    set [user_allowed_urls] of [parks.py] returns, for the [PARKS] of
    any configuration. *)
Theorem inline_resolution_agrees slug plc_config table user :
  User.is_superuser user = false →
  ws_allowed_urls plc_config (build_PARKS slug plc_config) table user
  = user_allowed_urls (build_PARKS slug plc_config) table user.
Proof.
  intros Hsu. apply set_eq. intros u.
  unfold ws_allowed_urls. rewrite Hsu.
  rewrite elem_of_list_to_set, list_elem_of_omap.
  unfold user_allowed_urls, user_allowed_park_ids.
  rewrite elem_of_map_park_ids_to_urls. split.
  - intros (pid & Hsel & Hu).
    destruct (build_PARKS slug plc_config !! pid) as [info|] eqn:Hl;
      [|done].
    injection Hu as <-. split.
    + by eapply PARKS_has_url.
    + exists pid, info. split; [|done].
      apply elem_of_elements, elem_of_list_to_set, list_elem_of_In, filter_In.
      split; [by apply list_elem_of_In|].
      unfold is_valid_park. apply bool_decide_eq_true. by rewrite Hl.
  - intros (_ & pid & info & Hpid & Hl & Hu). exists pid.
    apply elem_of_elements, elem_of_list_to_set in Hpid.
    apply list_elem_of_In, filter_In in Hpid as [Hsel _].
    split; [by apply list_elem_of_In|]. by rewrite Hl, <- Hu.
Qed.

(** ** Granting and revoking *)

Lemma grant_matches_other user_id park_id u' p' r :
  u' ≠ user_id ∨ p' ≠ park_id →
  grant_matches user_id park_id r = true → grant_matches u' p' r = false.
Proof.
  intros Hd [Hu Hp]%grant_matches_spec.
  apply not_true_is_false. intros [Hu' Hp']%grant_matches_spec.
  destruct Hd; congruence.
Qed.

Lemma rows_of_revoke_other user_id park_id u' p' table :
  u' ≠ user_id ∨ p' ≠ park_id →
  rows_of u' p' (revoke_user_park user_id park_id table)
  = rows_of u' p' table.
Proof.
  intros Hd. unfold rows_of, revoke_user_park.
  induction table as [|r table IH]; [done|]. simpl.
  destruct (grant_matches user_id park_id r) eqn:E; simpl.
  - rewrite (grant_matches_other _ _ u' p' r Hd E). apply IH.
  - destruct (grant_matches u' p' r); by rewrite IH.
Qed.

Lemma rows_of_revoke user_id park_id table :
  rows_of user_id park_id (revoke_user_park user_id park_id table) = [].
Proof.
  unfold rows_of, revoke_user_park.
  induction table as [|r table IH]; [done|]. simpl.
  destruct (grant_matches user_id park_id r) eqn:E; simpl; [done|].
  by rewrite E.
Qed.

Lemma revoke_absent user_id park_id table :
  rows_of user_id park_id table = [] →
  revoke_user_park user_id park_id table = table.
Proof.
  unfold rows_of, revoke_user_park.
  induction table as [|r table IH]; [done|]. simpl.
  destruct (grant_matches user_id park_id r) eqn:E; simpl; [done|].
  intros H. by rewrite IH.
Qed.

Lemma elem_of_get_user_parks table user_id park_id :
  park_id ∈ get_user_parks table user_id
  ↔ rows_of user_id park_id table ≠ [].
Proof.
  unfold get_user_parks. rewrite elem_of_select_park_ids. split.
  - intros (row & Hin & Hu & Hp) Hnil.
    assert (Hr : In row (rows_of user_id park_id table)).
    { apply filter_In. split; [by apply list_elem_of_In|].
      by apply grant_matches_spec. }
    by rewrite Hnil in Hr.
  - intros Hne. destruct (rows_of user_id park_id table) as [|row l] eqn:E;
      [done|].
    assert (Hr : In row (rows_of user_id park_id table))
      by (rewrite E; by left).
    apply filter_In in Hr as [Hin [Hu Hp]%grant_matches_spec].
    exists row. by rewrite list_elem_of_In.
Qed.

(** X22. What a grant does.  For a park that [PARKS] does not list the
    answer is 404 and the table is untouched.  When the answer is 204
    the park is listed, the table holds exactly one row for the pair
    and [get_user_parks] shows the park for the user.  In every case
    the rows of every other user, and of the same user for every other
    park, are as they were. *)
Theorem grant_user_park_effect PARKS fresh user_id park_id (table : Table) :
  let out := grant_user_park PARKS fresh user_id park_id table in
  (PARKS !! park_id = None →
   out = (table, NotFound_404 (String.append "Unknown park id: " park_id)))
  ∧ (snd out = NoContent_204 →
     is_Some (PARKS !! park_id)
     ∧ length (rows_of user_id park_id (fst out)) = 1%nat
     ∧ park_id ∈ get_user_parks (fst out) user_id)
  ∧ (∀ u' p', u' ≠ user_id ∨ p' ≠ park_id →
              rows_of u' p' (fst out) = rows_of u' p' table).
Proof.
  cbv zeta. rewrite grant_user_park_cases.
  destruct (PARKS !! park_id) as [info|]; [|by repeat split].
  split; [done|].
  fold (rows_of user_id park_id table).
  destruct (rows_of user_id park_id table) as [|r0 [|r1 l]] eqn:Hrows;
    cbn [fst snd].
  - assert (Hnew : rows_of user_id park_id
                     (table ++ [UserParkAccess.mk fresh user_id park_id])
                   = [UserParkAccess.mk fresh user_id park_id]).
    { unfold rows_of in *. rewrite List.filter_app, Hrows. simpl.
      assert (grant_matches user_id park_id
                (UserParkAccess.mk fresh user_id park_id) = true) as ->
        by (by apply grant_matches_spec).
      done. }
    split.
    + intros _. split; [by eexists|]. split; [by rewrite Hnew|].
      apply elem_of_get_user_parks. by rewrite Hnew.
    + intros u' p' Hd. unfold rows_of. rewrite List.filter_app. simpl.
      rewrite (grant_matches_other user_id park_id u' p' _ Hd)
        by (by apply grant_matches_spec).
      apply app_nil_r.
  - split; [|done]. intros _. split; [by eexists|]. rewrite Hrows.
    split; [done|]. apply elem_of_get_user_parks. by rewrite Hrows.
  - split; [|done]. discriminate.
Qed.

(** X23. What a revocation does.  Afterwards the table has no row for
    the pair, so the park is neither listed by [get_user_parks] nor
    among the user's allowed parks; the rows of every other pair are as
    they were; revoking again changes nothing; and revoking a pair the
    table does not hold leaves the table as it is. *)
Theorem revoke_user_park_effect user_id park_id (table : Table) :
  let after := revoke_user_park user_id park_id table in
  rows_of user_id park_id after = []
  ∧ (park_id ∉ get_user_parks after user_id)
  ∧ (∀ PARKS user, User.id user = user_id →
                   park_id ∉ user_allowed_park_ids PARKS after user)
  ∧ (∀ u' p', u' ≠ user_id ∨ p' ≠ park_id →
              rows_of u' p' after = rows_of u' p' table)
  ∧ revoke_user_park user_id park_id after = after
  ∧ (rows_of user_id park_id table = [] → after = table).
Proof.
  cbv zeta. pose proof (rows_of_revoke user_id park_id table) as Hnone.
  assert (Hnot : park_id ∉ get_user_parks
                   (revoke_user_park user_id park_id table) user_id).
  { rewrite elem_of_get_user_parks. by intros []. }
  split; [done|]. split; [done|]. split.
  { intros PARKS user <-. unfold user_allowed_park_ids.
    rewrite elem_of_list_to_set, list_elem_of_In, filter_In.
    intros [Hsel _]. by apply Hnot, list_elem_of_In. }
  split; [intros u' p'; apply rows_of_revoke_other|].
  split; [by apply revoke_absent | apply revoke_absent].
Qed.

(** X24. Granting and revoking undo each other.  On a table without
    a row for the pair, a grant followed by the revocation gives back
    the table, whether the grant stored its row or not.  And on any
    table, a grant of a listed park that follows the revocation does
    not fail on duplicate rows, as it may have done before; where it
    answers 204, the table has exactly one new row for the pair. *)
Theorem grant_revoke_round_trip PARKS fresh user_id park_id (table : Table) :
  is_Some (PARKS !! park_id) →
  (rows_of user_id park_id table = [] →
   revoke_user_park user_id park_id
     (fst (grant_user_park PARKS fresh user_id park_id table))
   = table)
  ∧ let out :=
      grant_user_park PARKS fresh user_id park_id
        (revoke_user_park user_id park_id table) in
    snd out ≠ Unhandled "MultipleResultsFound"
    ∧ (snd out = NoContent_204 →
       fst out
       = revoke_user_park user_id park_id table
           ++ [UserParkAccess.mk fresh user_id park_id]).
Proof.
  intros [info Hinfo]. cbv zeta.
  rewrite !grant_user_park_cases, Hinfo. split.
  - intros Hrows. fold (rows_of user_id park_id table). rewrite Hrows.
    cbn [fst]. unfold revoke_user_park. rewrite List.filter_app. simpl.
    assert (grant_matches user_id park_id
              (UserParkAccess.mk fresh user_id park_id) = true) as ->
      by (by apply grant_matches_spec).
    simpl. rewrite app_nil_r. by apply revoke_absent.
  - fold (rows_of user_id park_id (revoke_user_park user_id park_id table)).
    by rewrite rows_of_revoke.
Qed.

(** X25. A grant takes effect on what the user sees: once a grant of a
    park of the configuration is answered 204, the url of that park is
    among the user's allowed urls, by [user_allowed_urls] and by the
    resolution [ws_endpoint] makes for a new connection. *)
Theorem grant_gives_visibility slug plc_config fresh user park_id
    (table : Table) :
  let PARKS := build_PARKS slug plc_config in
  let out := grant_user_park PARKS fresh (User.id user) park_id table in
  snd out = NoContent_204 →
  ∃ info,
    PARKS !! park_id = Some info
    ∧ park_url info ∈ user_allowed_urls PARKS (fst out) user
    ∧ park_url info ∈ ws_allowed_urls plc_config PARKS (fst out) user.
Proof.
  intros PARKS out Hok.
  assert (Hinfo : is_Some (PARKS !! park_id)).
  { subst out. rewrite grant_user_park_cases in Hok.
    destruct (PARKS !! park_id); [by eexists | discriminate]. }
  destruct Hinfo as [info Hinfo]. exists info. split; [done|].
  assert (Hrow : ∃ row, row ∈ fst out
                        ∧ UserParkAccess.user_id row = User.id user
                        ∧ UserParkAccess.park_id row = park_id).
  { subst out. rewrite grant_user_park_cases, Hinfo in Hok |- *.
    fold (rows_of (User.id user) park_id table) in Hok |- *.
    destruct (rows_of (User.id user) park_id table) as [|r0 [|r1 l]] eqn:E;
      cbn [fst snd] in *; [| |discriminate Hok].
    - eexists.
      split; [apply elem_of_app; right; apply list_elem_of_here | done].
    - assert (Hr : In r0 (rows_of (User.id user) park_id table))
        by (rewrite E; by left).
      apply filter_In in Hr as [Hin [Hu Hp]%grant_matches_spec].
      exists r0. by rewrite list_elem_of_In. }
  destruct Hrow as (row & Hin & Hu & Hp).
  assert (Hurl : park_url info ≠ "") by (by eapply PARKS_has_url).
  split.
  - unfold user_allowed_urls, user_allowed_park_ids.
    apply elem_of_map_park_ids_to_urls. split; [done|].
    exists park_id, info. split; [|done].
    apply elem_of_elements, elem_of_list_to_set, list_elem_of_In, filter_In.
    split.
    + apply list_elem_of_In, elem_of_select_park_ids. by exists row.
    + unfold is_valid_park. apply bool_decide_eq_true. by rewrite Hinfo.
  - unfold ws_allowed_urls. destruct (User.is_superuser user).
    + by eapply build_PARKS_within.
    + apply elem_of_list_to_set, list_elem_of_omap. exists park_id.
      split; [apply elem_of_select_park_ids; by exists row|].
      fold PARKS. by rewrite Hinfo.
Qed.

(** ** The guards of the write endpoint *)

(** X26. What stands before a write.  A caller who is not a superuser
    is answered 403 whatever the request names; a write succeeds only
    for a superuser, on the first device of [plc_clients] with the
    requested url, that device being [CONNECTED], and only if the
    server took the value; and a float that is not finite is never
    written. *)
Theorem write_plc_value_guards env clients req user :
  (User.is_superuser user = false →
   write_plc_value env clients req user
   = HTTPException 403 "Write requires superuser privileges.")
  ∧ (∀ v vt,
       write_plc_value env clients req user = Success v vt →
       User.is_superuser user = true
       ∧ set_attribute_error env = None
       ∧ ∃ target,
           List.find (fun p => String.eqb (url p) (plc_url req)) clients
           = Some target
           ∧ status target = CONNECTED)
  ∧ (∀ x, value req = V_float x → (∀ q, x ≠ Finite q) →
          ∀ v vt, write_plc_value env clients req user ≠ Success v vt).
Proof.
  unfold write_plc_value, write_failed. split; [by intros ->|].
  destruct (User.is_superuser user); simpl; [|by split].
  destruct (List.find _ clients) as [target|]; [|by split].
  destruct (bool_decide (status target = CONNECTED)) eqn:Hst; simpl;
    [|by split].
  apply bool_decide_eq_true in Hst.
  destruct (Dict.get (nodes target) (node_name req)) as [node|]; [|by split].
  destruct (get_data_type_as_variant_type node) as [vt'|]; [|by split].
  split.
  - intros v vt.
    destruct (value req) as [[q|neg|]|bs|n|s]; simpl;
      destruct (set_attribute_error env); try discriminate;
      intros _; eauto.
  - intros x -> Hx v vt. destruct x as [q|neg|]; simpl; [|done..].
    by destruct (Hx q).
Qed.

(** * The further properties on the scenarios *)

Lemma discovery_sound_witness :
  readable_as "Setpoint" setpoint_node ∧ setpoint_node ∈ visited plant_tree.
Proof.
  apply (discovery_sound plant_tree "Setpoint" setpoint_node). reflexivity.
Defined.

Lemma discovery_complete_witness :
  ∃ found,
    Dict.get (_get_readable_nodes plant_tree) "Level" = Some found
    ∧ readable_as "Level" found.
Proof.
  apply (discovery_complete plant_tree "Level" level_node).
  - apply list_elem_of_In. simpl. tauto.
  - split; reflexivity.
Defined.

Lemma connect_then_read_witness :
  snap_nodes
    (result_of
       (read_data (Values ["21"; "3.5"])
          (state_of
             (connect_and_discover 0 plant_env
                (OpcUaClient_init "opc.tcp://a:4840" "Park A" "ns=2;s=R")))))
  = [("Setpoint", "21"); ("Level", "3.5")].
Proof.
  destruct (connect_then_read 0 plant_env
              (OpcUaClient_init "opc.tcp://a:4840" "Park A" "ns=2;s=R")
              ["21"; "3.5"] eq_refl) as (_ & _ & H).
  exact (proj2 H).
Defined.

Lemma read_after_protocol_error_witness :
  snap_status
    (result_of
       (read_data (Values ["21"])
          (state_of
             (read_data (RaisesUaStatusCodeError "BadTimeout")
                connected_device))))
  = "ERROR".
Proof.
  destruct (read_after_protocol_error connected_device
              (mkClient "opc.tcp://a:4840" 40) "BadTimeout" (Values ["21"])
              eq_refl eq_refl) as (_ & _ & H & _).
  - discriminate.
  - exact H.
Defined.

Lemma connected_not_redialled_witness :
  0%nat ∉ attempted
            (snd (tick (timedelta_minutes 5)
                    (unreachable_at (timedelta_minutes 60)) running_server)).
Proof.
  destruct (connected_not_redialled (timedelta_minutes 5)
              (unreachable_at (timedelta_minutes 60)) running_server
              0%nat connected_device eq_refl eq_refl) as [H _].
  exact H.
Defined.

Lemma broadcast_respects_visibility_witness :
  ∃ ws, ws ∈ registered two_subscribers ∧ ws_id ws = 2%nat.
Proof.
  destruct (broadcast_respects_visibility (timedelta_minutes 5)
              first_send_raises two_subscribers 2
              (telemetry_update
                 [mkSnapshot "Park B" "DISCONNECTED" "opc.tcp://b:4840" []
                    None]))
    as (ws & Hreg & Hid & _).
  - apply list_elem_of_further, list_elem_of_here.
  - exists ws. by split.
Defined.

Lemma superuser_receives_everything_witness :
  Forall (fun r =>
            visible_data
              (Some (ws_allowed_urls two_parks
                       (build_PARKS slugify two_parks) [] superuser))
              (all_plc_data r) = all_plc_data r)
    (snd (data_broadcast_loop 5 [unreachable_at 0; unreachable_at 1]
            {| plc_clients := on_startup two_parks "ns=2;s=Root";
               active_ws_connections := [] |})).
Proof.
  apply (superuser_receives_everything two_parks "ns=2;s=Root" [] 5
           [unreachable_at 0; unreachable_at 1]
           (build_PARKS slugify two_parks) [] superuser).
  - reflexivity.
  - repeat constructor; by eexists.
Defined.

Lemma pull_respects_visibility_witness :
  fst (get_initial_data two_parks (build_PARKS slugify two_parks)
         granted_once (fun _ => Values []) (on_startup two_parks "r")
         granted_user) !! 1%nat
  = Some (OpcUaClient_init "opc.tcp://b:4840" "Park B" "r").
Proof.
  destruct (pull_respects_visibility two_parks
              (build_PARKS slugify two_parks) granted_once
              (fun _ => Values []) (on_startup two_parks "r") granted_user)
    as (_ & _ & _ & H).
  apply (H 1%nat); [reflexivity|].
  apply (bool_decide_eq_false_1 (_ ∈ _)). vm_compute. reflexivity.
Defined.

Lemma pull_push_agree_witness :
  snap_url <$>
    visible_data
      (Some (ws_allowed_urls two_parks (build_PARKS slugify two_parks)
               granted_once granted_user))
      (all_plc_data
         (snd (tick (timedelta_minutes 5) (unreachable_at 0)
                 ungranted_server)))
  = snap_url <$>
      snd (get_initial_data two_parks (build_PARKS slugify two_parks)
             granted_once (fun _ => Values [])
             (plc_clients ungranted_server) granted_user).
Proof.
  apply (pull_push_agree two_parks (build_PARKS slugify two_parks)
           granted_once granted_user (timedelta_minutes 5)
           (unreachable_at 0) (fun _ => Values []) ungranted_server).
  intros Hempty.
  assert (Hin : "opc.tcp://a:4840"
                ∈ ws_allowed_urls two_parks (build_PARKS slugify two_parks)
                    granted_once granted_user).
  { apply (bool_decide_eq_true_1 (_ ∈ _)). vm_compute. reflexivity. }
  rewrite Hempty in Hin. by apply not_elem_of_empty in Hin.
Defined.

Lemma unregister_removes_witness :
  Dict.get
    (unregister_socket "7" (mkWebSocket 1 None)
       (active_ws_connections two_subscribers)) "8"
  = Dict.get (active_ws_connections two_subscribers) "8".
Proof.
  destruct (unregister_removes "7" (mkWebSocket 1 None)
              (active_ws_connections two_subscribers)) as [_ H].
  apply H. discriminate.
Defined.

Lemma register_unregister_witness :
  unregister_socket "7" (mkWebSocket 3 None)
    (register_socket "7" (mkWebSocket 3 None)
       (active_ws_connections two_subscribers))
  = active_ws_connections two_subscribers.
Proof.
  apply (register_unregister "7" (mkWebSocket 3 None)
           (active_ws_connections two_subscribers)).
  - discriminate.
  - intros conns [= <-]. reflexivity.
Defined.

Lemma bearer_token_extraction_witness :
  extract_token (mkWsRequest None (Some "abc") None true) = AcceptError
  ∧ extract_token subprotocol_request = Accepted (Some "abc")
  ∧ extract_token header_request = Accepted (Some "abc")
  ∧ extract_token basic_request = Accepted None.
Proof.
  split; [|split; [|split]].
  - destruct (bearer_token_extraction
                (mkWsRequest None (Some "abc") None true)) as [H _].
    exact (H eq_refl).
  - destruct (bearer_token_extraction subprotocol_request) as [_ H].
    destruct (H eq_refl) as [Hp _].
    exact (Hp " abc " eq_refl).
  - destruct (bearer_token_extraction header_request) as [_ H].
    destruct (H eq_refl) as [_ Hq]. destruct (Hq eq_refl) as [_ Hh].
    destruct (Hh eq_refl) as [Hb _].
    exact (Hb (list_ascii_of_string "BeArEr") (list_ascii_of_string "abc")
             eq_refl eq_refl).
  - destruct (bearer_token_extraction basic_request) as [_ H].
    destruct (H eq_refl) as [_ Hq]. destruct (Hq eq_refl) as [_ Hh].
    destruct (Hh eq_refl) as [_ Hn].
    apply Hn. intros scheme t Hs.
    destruct scheme as [|c1 [|c2 [|c3 [|c4 [|c5 [|c6 [|c7 scheme]]]]]]];
      try discriminate Hs.
    simpl. intros [=].
Defined.

Lemma PARKS_entries_filled_witness :
  build_PARKS slugify two_parks !! "a"
  = Some (mkParkInfo "Park A" "opc.tcp://a:4840")
  ∧ park_name (mkParkInfo "Park A" "opc.tcp://a:4840") ≠ "".
Proof.
  assert (H : build_PARKS slugify two_parks !! "a"
              = Some (mkParkInfo "Park A" "opc.tcp://a:4840"))
    by (vm_compute; reflexivity).
  split; [exact H|].
  exact (proj1 (proj2 (PARKS_entries_filled two_parks "a" _ H))).
Defined.

Lemma inline_resolution_agrees_witness :
  ws_allowed_urls two_parks (build_PARKS slugify two_parks) granted_once
    granted_user
  = user_allowed_urls (build_PARKS slugify two_parks) granted_once
      granted_user.
Proof.
  apply (inline_resolution_agrees slugify two_parks granted_once
           granted_user).
  reflexivity.
Defined.

Lemma grant_user_park_effect_witness :
  "b" ∈ get_user_parks
          (fst (grant_user_park (build_PARKS slugify two_parks) 11 7 "b"
                  granted_once)) 7.
Proof.
  destruct (grant_user_park_effect (build_PARKS slugify two_parks) 11 7 "b"
              granted_once) as (_ & H & _).
  apply H. vm_compute. reflexivity.
Defined.

Lemma revoke_user_park_effect_witness :
  rows_of 7 "b" (revoke_user_park 7 "a" granted_once)
  = rows_of 7 "b" granted_once.
Proof.
  destruct (revoke_user_park_effect 7 "a" granted_once)
    as (_ & _ & _ & H & _).
  apply H. right. discriminate.
Defined.

Lemma grant_revoke_round_trip_witness :
  revoke_user_park 7 "b"
    (fst (grant_user_park (build_PARKS slugify two_parks) 11 7 "b"
            granted_once))
  = granted_once
  ∧ fst (grant_user_park (build_PARKS slugify two_parks) 11 7 "a"
           (revoke_user_park 7 "a" granted_once))
    = [UserParkAccess.mk 11 7 "a"].
Proof.
  split.
  - destruct (grant_revoke_round_trip (build_PARKS slugify two_parks) 11 7
                "b" granted_once) as [H _].
    + exists (mkParkInfo "Park B" "opc.tcp://b:4840"). vm_compute.
      reflexivity.
    + apply H. reflexivity.
  - destruct (grant_revoke_round_trip (build_PARKS slugify two_parks) 11 7
                "a" granted_once) as (_ & _ & H).
    + exists (mkParkInfo "Park A" "opc.tcp://a:4840"). vm_compute.
      reflexivity.
    + apply H. vm_compute. reflexivity.
Defined.

Lemma grant_gives_visibility_witness :
  ∃ info,
    build_PARKS slugify two_parks !! "b" = Some info
    ∧ park_url info
      ∈ user_allowed_urls (build_PARKS slugify two_parks)
          (fst (grant_user_park (build_PARKS slugify two_parks) 11
                  (User.id granted_user) "b" granted_once))
          granted_user.
Proof.
  destruct (grant_gives_visibility slugify two_parks 11 granted_user "b"
              granted_once) as (info & H1 & H2 & _).
  - vm_compute. reflexivity.
  - by exists info.
Defined.

Lemma write_plc_value_guards_witness :
  write_plc_value server_accepts [setpoint_device]
    (mkWriteRequest "opc.tcp://a:4840" "Setpoint" (V_int 3)) granted_user
  = HTTPException 403 "Write requires superuser privileges.".
Proof.
  destruct (write_plc_value_guards server_accepts [setpoint_device]
              (mkWriteRequest "opc.tcp://a:4840" "Setpoint" (V_int 3))
              granted_user) as [H _].
  apply H. reflexivity.
Defined.
